(** * Waypoint updater: a shallow embedding of
      [ros/src/waypoint_updater/waypoint_updater.py]

    The node caches the latest vehicle pose, the reference path and the
    stop-line index, and on every tick publishes a short window of the
    reference path whose speeds are rewritten when a stop line is near.

    Conventions of the embedding.
    - Python [float]s are idealised as real numbers ([R]); Python [int]s are
      [Z].  Rounding, infinities and NaN are outside the model.
    - A Python exception is a value of [exn]; code that can raise lives in
      the error monad [py].
    - Lists are indexed the way Python does it: a negative index counts from
      the end ([py_index]), a slice clamps its bounds ([py_slice]).
    - The first part works on message values; the last part ([Module Store])
      gives waypoints an identity so that aliasing can be stated. *)

From Stdlib Require Import ZArith Reals Lra Lia List String.
From stdpp Require Import base option list.
Import ListNotations.

(** ** Python values that can fail *)

Inductive exn :=
  IndexError | TypeError | AttributeError | ZeroDivisionError | ValueError.

Inductive py (A : Type) :=
| Ret (a : A)
| Raise (e : exn).
Arguments Ret {A} a.
Arguments Raise {A} e.

#[global] Instance py_ret : MRet py := fun A a => Ret a.
#[global] Instance py_bind : MBind py := fun A B f m =>
  match m with
  | Ret a => f a
  | Raise e => Raise e
  end.

Definition returns {A} (m : py A) : Prop := exists a, m = Ret a.

(** [l[i]] for a Python list: [-len <= i < 0] counts from the end. *)
Definition py_index {A} (l : list A) (i : Z) : py A :=
  let n := Z.of_nat (length l) in
  let k := if (i <? 0)%Z then (i + n)%Z else i in
  if ((0 <=? k) && (k <? n))%Z
  then match l !! Z.to_nat k with
       | Some a => Ret a
       | None => Raise IndexError
       end
  else Raise IndexError.

(** One bound of a slice, as [PySlice_AdjustIndices] does it for step 1. *)
Definition py_clamp (n i : Z) : Z :=
  if (i <? 0)%Z then Z.max (i + n) 0 else Z.min i n.

(** [l[a:b]]. *)
Definition py_slice {A} (l : list A) (a b : Z) : list A :=
  let n := Z.of_nat (length l) in
  let a' := py_clamp n a in
  let b' := py_clamp n b in
  take (Z.to_nat (b' - a')) (drop (Z.to_nat a') l).

(** [range(a, b)]. *)
Definition py_range (a b : Z) : list Z :=
  map (fun k => (a + Z.of_nat k)%Z) (seq 0 (Z.to_nat (b - a))).

(** [enumerate(l)]. *)
Definition enumerate {A} (l : list A) : list (Z * A) :=
  imap (fun i a => (Z.of_nat i, a)) l.

(** ** Messages *)

Module Header.
Record t := mk { seq : Z; stamp : Z * Z; frame_id : string }.
Definition default : t := mk 0 (0, 0)%Z EmptyString.
End Header.

Module Point.
Record t := mk { x : R; y : R; z : R }.
Definition default : t := mk 0 0 0.
End Point.

Module Quaternion.
Record t := mk { x : R; y : R; z : R; w : R }.
Definition default : t := mk 0 0 0 0.
End Quaternion.

Module Pose.
Record t := mk { position : Point.t; orientation : Quaternion.t }.
Definition default : t := mk Point.default Quaternion.default.
End Pose.

Module PoseStamped.
Record t := mk { header : Header.t; pose : Pose.t }.
Definition default : t := mk Header.default Pose.default.
End PoseStamped.

Module Vector3.
Record t := mk { x : R; y : R; z : R }.
Definition default : t := mk 0 0 0.
End Vector3.

Module Twist.
Record t := mk { linear : Vector3.t; angular : Vector3.t }.
Definition default : t := mk Vector3.default Vector3.default.
End Twist.

Module TwistStamped.
Record t := mk { header : Header.t; twist : Twist.t }.
Definition default : t := mk Header.default Twist.default.
End TwistStamped.

Module Waypoint.
Record t := mk { pose : PoseStamped.t; twist : TwistStamped.t }.
(** [Waypoint()] *)
Definition default : t := mk PoseStamped.default TwistStamped.default.
End Waypoint.

Module Lane.
Record t := mk { header : Header.t; waypoints : list Waypoint.t }.
(** [Lane()] *)
Definition default : t := mk Header.default [].
End Lane.

(** [w.pose.pose.position] *)
Definition position_of (w : Waypoint.t) : Point.t :=
  Pose.position (PoseStamped.pose (Waypoint.pose w)).

(** [get_waypoint_velocity]: [waypoint.twist.twist.linear.x] *)
Definition get_waypoint_velocity (w : Waypoint.t) : R :=
  Vector3.x (Twist.linear (TwistStamped.twist (Waypoint.twist w))).

(** The assignment [t.twist.linear.x = v] on a twist. *)
Definition set_linear_x (t : TwistStamped.t) (v : R) : TwistStamped.t :=
  let tw := TwistStamped.twist t in
  let lin := Twist.linear tw in
  TwistStamped.mk (TwistStamped.header t)
    (Twist.mk (Vector3.mk v (Vector3.y lin) (Vector3.z lin)) (Twist.angular tw)).

(** ** The cumulative distance helper *)

(** The lambda [dl] of [distance]. *)
Definition dl (a b : Point.t) : R :=
  sqrt ((Point.x a - Point.x b) ^ 2 + (Point.y a - Point.y b) ^ 2
        + (Point.z a - Point.z b) ^ 2).

(** The body of the [for] loop of [distance], run over the values [range]
    yields; [wp1] is the loop-carried variable the code overwrites. *)
Fixpoint distance_loop (waypoints : list Waypoint.t) (wp1 : Z) (ks : list Z)
    (dist : R) : py R :=
  match ks with
  | [] => Ret dist
  | i :: ks' =>
      a ← py_index waypoints wp1;
      b ← py_index waypoints i;
      distance_loop waypoints i ks' (dist + dl (position_of a) (position_of b))
  end.

Definition distance (waypoints : list Waypoint.t) (wp1 wp2 : Z) : py R :=
  distance_loop waypoints wp1 (py_range wp1 (wp2 + 1)) 0.

(** ** The node *)

(** [scipy.spatial.KDTree] is an external collaborator.  The node only ever
    calls [tree.query([x, y], 1)], which answers with a pair (distance, index
    of the nearest data point); a tree is modelled by that one method. *)
Record KDTree := { query : R * R -> R * Z }.

Record WaypointUpdater := {
  waypoints_base : option Lane.t;
  waypoints_2d : option (list (R * R));
  waypoints_tree : option KDTree;
  pose : option PoseStamped.t;
  stopline_wp_idx : Z;
  lookahead_waypoints : Z;
  max_deceleration : R
}.

(** The member variables [__init__] sets, for the two parameters read from
    the parameter server. *)
Definition init (lookahead : Z) (max_decel : R) : WaypointUpdater :=
  {| waypoints_base := None; waypoints_2d := None; waypoints_tree := None;
     pose := None; stopline_wp_idx := -1;
     lookahead_waypoints := lookahead; max_deceleration := max_decel |}.

(** Reading an attribute or an item of [None]. *)
Definition attr {A} (o : option A) : py A :=
  match o with Some a => Ret a | None => Raise AttributeError end.
Definition subscriptable {A} (o : option A) : py A :=
  match o with Some a => Ret a | None => Raise TypeError end.

(** [a % b] on integers: the sign of the result follows [b]. *)
Definition py_mod (a b : Z) : py Z :=
  if (b =? 0)%Z then Raise ZeroDivisionError else Ret (a mod b)%Z.

(** [np.dot(a - b, c - d)] on two-element vectors. *)
Definition np_sub (a b : R * R) : R * R := (a.1 - b.1, a.2 - b.2)%R.
Definition np_dot (a b : R * R) : R := (a.1 * b.1 + a.2 * b.2)%R.

(** [[x, y]] of a waypoint, as [waypoints_cb] stores it. *)
Definition xy (w : Waypoint.t) : R * R :=
  (Point.x (position_of w), Point.y (position_of w)).

Definition get_closest_waypoint_idx (self : WaypointUpdater) : py Z :=
  p ← attr (pose self);
  let x := Point.x (Pose.position (PoseStamped.pose p)) in
  let y := Point.y (Pose.position (PoseStamped.pose p)) in
  tree ← attr (waypoints_tree self);
  let closest_idx := (query tree (x, y)).2 in
  w2d ← subscriptable (waypoints_2d self);
  closest_coord ← py_index w2d closest_idx;
  prev_coord ← py_index w2d (closest_idx - 1);
  let val := np_dot (np_sub closest_coord prev_coord)
                    (np_sub (x, y) closest_coord) in
  if Rgt_dec val 0
  then py_mod (closest_idx + 1) (Z.of_nat (length w2d))
  else Ret closest_idx.

(** Line 124: the local index at which the vehicle has to stand still. *)
Definition stop_local (self : WaypointUpdater) (closest_idx : Z) : Z :=
  Z.max (stopline_wp_idx self - closest_idx - 3) 0.

(** Lines 128-129: [if vel < 1: vel = 0]. *)
Definition clamp_low (vel : R) : R :=
  if Rlt_dec vel 1 then 0%R else vel.

(** One iteration of the loop of [decelerate_waypoints]: the waypoint [p]
    appended for the pair [(i, wp)].  [p] is a new [Waypoint()] that takes
    over the pose of [wp] and has only the linear x speed of its twist set. *)
Definition decelerate_step (self : WaypointUpdater)
    (waypoints : list Waypoint.t) (closest_idx : Z) (i : Z)
    (wp : Waypoint.t) : py Waypoint.t :=
  let stop_idx := stop_local self closest_idx in
  dist ← distance waypoints i stop_idx;
  let vel := (max_deceleration self * dist)%R in
  let vel := clamp_low vel in
  Ret (Waypoint.mk (Waypoint.pose wp)
         (set_linear_x (Waypoint.twist Waypoint.default)
            (Rmin vel (get_waypoint_velocity wp)))).

Fixpoint decelerate_loop (self : WaypointUpdater)
    (waypoints : list Waypoint.t) (closest_idx : Z)
    (items : list (Z * Waypoint.t)) (temp : list Waypoint.t)
    : py (list Waypoint.t) :=
  match items with
  | [] => Ret temp
  | (i, wp) :: items' =>
      p ← decelerate_step self waypoints closest_idx i wp;
      decelerate_loop self waypoints closest_idx items' (temp ++ [p])
  end.

Definition decelerate_waypoints (self : WaypointUpdater)
    (waypoints : list Waypoint.t) (closest_idx : Z) : py (list Waypoint.t) :=
  decelerate_loop self waypoints closest_idx (enumerate waypoints) [].

(** Lines 106-107: the slice [waypoints[closest_idx:closest_idx + lookahead]]. *)
Definition lane_window {A} (waypoints : list A) (closest_idx lookahead : Z)
    : list A :=
  py_slice waypoints closest_idx (closest_idx + lookahead).

(** Line 110: the test that sends [generate_lane] down the cruise branch. *)
Definition cruise (self : WaypointUpdater) (closest_idx : Z) : bool :=
  let farthest_idx := (closest_idx + lookahead_waypoints self)%Z in
  ((stopline_wp_idx self =? -1) || (farthest_idx <=? stopline_wp_idx self))%Z.

Definition generate_lane (self : WaypointUpdater) : py Lane.t :=
  let lane := Lane.default in
  closest_idx ← get_closest_waypoint_idx self;
  base ← attr (waypoints_base self);
  let base_waypoints :=
    lane_window (Lane.waypoints base) closest_idx (lookahead_waypoints self) in
  if cruise self closest_idx
  then Ret (Lane.mk (Lane.header lane) base_waypoints)
  else
    wps ← decelerate_waypoints self base_waypoints closest_idx;
    Ret (Lane.mk (Lane.header lane) wps).

(** [publish_waypoints] hands the lane to the publisher; the value returned
    here is the message published on [final_waypoints]. *)
Definition publish_waypoints (self : WaypointUpdater) (closest_idx : Z)
    : py Lane.t :=
  generate_lane self.

(** One pass through the body of the [while] loop of [run]: [Ret None] when
    nothing is published, [Ret (Some lane)] when [lane] is, [Raise e] when
    the pass ends in an exception.  The three members tested are [None] or
    a message or tree object, and such an object is always true. *)
Definition run_tick (self : WaypointUpdater) : py (option Lane.t) :=
  match pose self, waypoints_base self, waypoints_tree self with
  | Some _, Some _, Some _ =>
      closest_waypoint_idx ← get_closest_waypoint_idx self;
      lane ← publish_waypoints self closest_waypoint_idx;
      Ret (Some lane)
  | _, _, _ => Ret None
  end.

(** *** Callbacks *)

Definition pose_cb (self : WaypointUpdater) (msg : PoseStamped.t)
    : WaypointUpdater :=
  {| waypoints_base := waypoints_base self;
     waypoints_2d := waypoints_2d self;
     waypoints_tree := waypoints_tree self;
     pose := Some msg;
     stopline_wp_idx := stopline_wp_idx self;
     lookahead_waypoints := lookahead_waypoints self;
     max_deceleration := max_deceleration self |}.

(** [KDTree_new] stands for the constructor [KDTree(data)], which can raise
    (scipy raises [ValueError] on empty data).  The three assignments of
    the callback run in order: when the constructor raises, the path and
    its 2-D positions are already replaced and the tree is the one held
    before.  The result is the node the callback leaves behind and the way
    the callback ends. *)
Definition waypoints_cb (KDTree_new : list (R * R) -> py KDTree)
    (self : WaypointUpdater) (waypoints : Lane.t)
    : WaypointUpdater * py unit :=
  let w2d := map xy (Lane.waypoints waypoints) in
  match KDTree_new w2d with
  | Ret tree =>
      ({| waypoints_base := Some waypoints;
          waypoints_2d := Some w2d;
          waypoints_tree := Some tree;
          pose := pose self;
          stopline_wp_idx := stopline_wp_idx self;
          lookahead_waypoints := lookahead_waypoints self;
          max_deceleration := max_deceleration self |}, Ret tt)
  | Raise e =>
      ({| waypoints_base := Some waypoints;
          waypoints_2d := Some w2d;
          waypoints_tree := waypoints_tree self;
          pose := pose self;
          stopline_wp_idx := stopline_wp_idx self;
          lookahead_waypoints := lookahead_waypoints self;
          max_deceleration := max_deceleration self |}, Raise e)
  end.

Definition traffic_cb (self : WaypointUpdater) (msg : Z) : WaypointUpdater :=
  {| waypoints_base := waypoints_base self;
     waypoints_2d := waypoints_2d self;
     waypoints_tree := waypoints_tree self;
     pose := pose self;
     stopline_wp_idx := msg;
     lookahead_waypoints := lookahead_waypoints self;
     max_deceleration := max_deceleration self |}.

(** ** Waypoints as objects

    The message values above say what a lane contains; they cannot say
    whether two lanes hold the same Python object.  Here a waypoint is a
    location of a store.  A waypoint object refers to its [PoseStamped]
    (the assignment [p.pose = wp.pose] shares it) and owns its
    [TwistStamped] (no code of the node makes two waypoints share a twist).
    Objects are only ever added to a store, so a location never dangles;
    the total lookup [!!!] is used. *)

Module Store.

Definition loc := nat.

Record WaypointObj := { pose_ref : loc; twist : TwistStamped.t }.

Record heap := { poses : list PoseStamped.t; objs : list WaypointObj }.

#[global] Instance PoseStamped_inhabited : Inhabited PoseStamped.t :=
  populate PoseStamped.default.
#[global] Instance WaypointObj_inhabited : Inhabited WaypointObj :=
  populate {| pose_ref := 0%nat; twist := TwistStamped.default |}.

(** The message value of the waypoint at [l]. *)
Definition deref (h : heap) (l : loc) : Waypoint.t :=
  let o := objs h !!! l in
  Waypoint.mk (poses h !!! pose_ref o) (twist o).

(** A new waypoint object. *)
Definition alloc (h : heap) (o : WaypointObj) : loc * heap :=
  (length (objs h), {| poses := poses h; objs := objs h ++ [o] |}).

(** [waypoints[waypoint].twist.twist.linear.x = velocity] *)
Definition set_waypoint_velocity (h : heap) (waypoints : list loc)
    (waypoint : Z) (velocity : R) : py heap :=
  l ← py_index waypoints waypoint;
  let o := objs h !!! l in
  Ret {| poses := poses h;
         objs := <[l := {| pose_ref := pose_ref o;
                           twist := set_linear_x (twist o) velocity |}]>
                   (objs h) |}.

Fixpoint decelerate_loop (self : WaypointUpdater) (waypoints : list loc)
    (closest_idx : Z) (items : list (Z * loc)) (h : heap) (temp : list loc)
    : py (heap * list loc) :=
  match items with
  | [] => Ret (h, temp)
  | (i, wp) :: items' =>
      let stop_idx := stop_local self closest_idx in
      dist ← distance (map (deref h) waypoints) i stop_idx;
      let vel := (max_deceleration self * dist)%R in
      let vel := clamp_low vel in
      let (p, h') :=
        alloc h {| pose_ref := pose_ref (objs h !!! wp);
                   twist := set_linear_x (Waypoint.twist Waypoint.default)
                              (Rmin vel (get_waypoint_velocity (deref h wp))) |} in
      decelerate_loop self waypoints closest_idx items' h' (temp ++ [p])
  end.

Definition decelerate_waypoints (self : WaypointUpdater) (h : heap)
    (waypoints : list loc) (closest_idx : Z) : py (heap * list loc) :=
  decelerate_loop self waypoints closest_idx (enumerate waypoints) h [].

(** [generate_lane] on a store: [base] holds the locations of the waypoints
    of [self.waypoints_base.waypoints]; the result is the store afterwards
    and the locations in [lane.waypoints]. *)
Definition generate_lane (self : WaypointUpdater) (h : heap)
    (base : list loc) : py (heap * list loc) :=
  closest_idx ← get_closest_waypoint_idx self;
  _ ← attr (waypoints_base self);
  let base_waypoints :=
    lane_window base closest_idx (lookahead_waypoints self) in
  if cruise self closest_idx
  then Ret (h, base_waypoints)
  else decelerate_waypoints self h base_waypoints closest_idx.

(** [base] are the objects of the reference path the node holds. *)
Definition holds (self : WaypointUpdater) (h : heap) (base : list loc) : Prop :=
  exists lane, waypoints_base self = Some lane
            /\ Lane.waypoints lane = map (deref h) base.

(** The store a freshly received path lives in: waypoint [i] of the path
    is the object at location [i], with a pose of its own. *)
Definition of_path (path : list Waypoint.t) : heap :=
  {| poses := map Waypoint.pose path;
     objs := imap (fun i w => {| pose_ref := i; twist := Waypoint.twist w |})
               path |}.

Definition locs_of_path (path : list Waypoint.t) : list loc :=
  seq 0 (length path).

End Store.

(** ** What the specification talks about *)

(** The length of the polyline through [ps]: the sum of the Euclidean
    distances between consecutive points. *)
Fixpoint polyline_length (ps : list Point.t) : R :=
  match ps with
  | a :: (b :: _) as tl => (dl a b + polyline_length tl)%R
  | _ => 0%R
  end.

(** A straight line of unit-spaced points: waypoint [k] sits at
    [o + k * u] for a unit vector [u]. *)
Definition unit_spaced_line (waypoints : list Waypoint.t) : Prop :=
  exists o u : Point.t,
    (Point.x u ^ 2 + Point.y u ^ 2 + Point.z u ^ 2 = 1)%R /\
    forall (k : nat) (w : Waypoint.t), waypoints !! k = Some w ->
      position_of w =
        Point.mk (Point.x o + INR k * Point.x u)
                 (Point.y o + INR k * Point.y u)
                 (Point.z o + INR k * Point.z u).

(** The waypoint [k] steps before [i] on a circular path of [n] waypoints. *)
Definition circular_prev (n i : Z) : Z := ((i - 1) mod n)%Z.
Definition circular_next (n i : Z) : Z := ((i + 1) mod n)%Z.

(** The speeds of a lane, in order. *)
Definition speeds (waypoints : list Waypoint.t) : list R :=
  map get_waypoint_velocity waypoints.

(** The state is one [waypoints_cb] leaves behind: the 2-D positions are
    those of the reference path. *)
Definition path_loaded (self : WaypointUpdater) (path : list Waypoint.t)
    : Prop :=
  (exists lane, waypoints_base self = Some lane /\ Lane.waypoints lane = path)
  /\ waypoints_2d self = Some (map xy path).

(** ** Paths used in the examples *)

(** A waypoint at [(px, 0, 0)] with cruise speed [v]. *)
Definition wp_at (px v : R) : Waypoint.t :=
  Waypoint.mk
    (PoseStamped.mk Header.default
       (Pose.mk (Point.mk px 0 0) Quaternion.default))
    (set_linear_x TwistStamped.default v).

(** [n] waypoints at [(0,0,0)], [(1,0,0)], ... with one cruise speed. *)
Definition line (n : nat) (v : R) : list Waypoint.t :=
  map (fun k => wp_at (INR k) v) (seq 0 n).

(** Six waypoints ten units apart; the first has the lower speed limit. *)
Definition ramp : list Waypoint.t :=
  [wp_at 0 1; wp_at 10 5; wp_at 20 5; wp_at 30 5; wp_at 40 5; wp_at 50 5].

(** Three unit-spaced waypoints at cruise speed 5. *)
Definition short_path : list Waypoint.t := [wp_at 0 5; wp_at 1 5; wp_at 2 5].

(** Two waypoints, the second with a negative speed. *)
Definition reversing : list Waypoint.t := [wp_at 0 5; wp_at 1 (-1)].

(** A spatial index that answers [i] whatever the query; it stands for a
    tree queried at a point whose nearest waypoint is [i]. *)
Definition tree_answering (i : Z) : KDTree := {| query := fun _ => (0%R, i) |}.

(** A node that has received [path], stands at [(px, 0)] next to waypoint
    [nearest], and knows the stop line [stop]. *)
Definition node_at (path : list Waypoint.t) (px : R) (nearest : Z)
    (stop lookahead : Z) (max_decel : R) : WaypointUpdater :=
  {| waypoints_base := Some (Lane.mk Header.default path);
     waypoints_2d := Some (map xy path);
     waypoints_tree := Some (tree_answering nearest);
     pose := Some (PoseStamped.mk Header.default
                     (Pose.mk (Point.mk px 0 0) Quaternion.default));
     stopline_wp_idx := stop;
     lookahead_waypoints := lookahead;
     max_deceleration := max_decel |}.

(** ** The node as a receiver of messages *)

(** [obstacle_cb]: the body is [pass].  [__init__] subscribes no topic to
    it. *)
Definition obstacle_cb (self : WaypointUpdater) (msg : Z) : WaypointUpdater :=
  self.

(** A message on one of the three topics [__init__] subscribes to:
    [/current_pose], [/base_waypoints] and [/traffic_waypoint]. *)
Inductive message :=
| CurrentPose (msg : PoseStamped.t)
| BaseWaypoints (msg : Lane.t)
| TrafficWaypoint (msg : Z).

(** The callback the subscriber of the topic runs.  rospy catches an
    exception a callback raises, logs it and keeps the subscriber running:
    the node goes on in the state the callback left. *)
Definition deliver (KDTree_new : list (R * R) -> py KDTree)
    (self : WaypointUpdater) (m : message) : WaypointUpdater :=
  match m with
  | CurrentPose msg => pose_cb self msg
  | BaseWaypoints msg => (waypoints_cb KDTree_new self msg).1
  | TrafficWaypoint msg => traffic_cb self msg
  end.

(** The node after the messages [ms], delivered in order. *)
Definition deliver_all (KDTree_new : list (R * R) -> py KDTree)
    (self : WaypointUpdater) (ms : list message) : WaypointUpdater :=
  fold_left (deliver KDTree_new) ms self.

(** The payload of the last message of [ms] that [pick] selects. *)
Definition latest {A} (pick : message -> option A) (ms : list message)
    : option A :=
  last (omap pick ms).

Definition pose_of_message (m : message) : option PoseStamped.t :=
  match m with CurrentPose msg => Some msg | _ => None end.
Definition lane_of_message (m : message) : option Lane.t :=
  match m with BaseWaypoints msg => Some msg | _ => None end.
Definition stop_of_message (m : message) : option Z :=
  match m with TrafficWaypoint msg => Some msg | _ => None end.

(** The tree a [/base_waypoints] message leaves in the node: the one built
    from its positions, when the constructor returns. *)
Definition tree_of_message (KDTree_new : list (R * R) -> py KDTree)
    (m : message) : option KDTree :=
  match m with
  | BaseWaypoints msg =>
      match KDTree_new (map xy (Lane.waypoints msg)) with
      | Ret tree => Some tree
      | Raise _ => None
      end
  | _ => None
  end.

(** The path and its 2-D positions belong together: both absent, or the
    positions those of the path held. *)
Definition consistent (self : WaypointUpdater) : Prop :=
  waypoints_2d self
  = (fun lane => map xy (Lane.waypoints lane)) <$> waypoints_base self.

(** A constructor for the examples: like scipy's it raises [ValueError] on
    empty data; on other data it builds a tree that answers 0. *)
Definition KDTree_stub (data : list (R * R)) : py KDTree :=
  match data with
  | [] => Raise ValueError
  | _ => Ret (tree_answering 0)
  end.

(** The waypoint the profiler emits for [wp] when the distance to the stop
    index is 0: the pose of [wp] and the speed [min(0, cruise)]. *)
Definition halted (wp : Waypoint.t) : Waypoint.t :=
  Waypoint.mk (Waypoint.pose wp)
    (set_linear_x (Waypoint.twist Waypoint.default)
       (Rmin 0 (get_waypoint_velocity wp))).

(** A pose message at [(px, py)]. *)
Definition pose_at (px py : R) : PoseStamped.t :=
  PoseStamped.mk Header.default (Pose.mk (Point.mk px py 0) Quaternion.default).

(** * Properties *)

(** ** Python lists *)

Lemma py_index_nat {A} (l : list A) (k : nat) (a : A) :
  l !! k = Some a -> py_index l (Z.of_nat k) = Ret a.
Proof.
  intros H. pose proof (lookup_lt_Some _ _ _ H) as Hlt.
  unfold py_index.
  destruct (Z.ltb_spec (Z.of_nat k) 0); [lia|].
  destruct (Z.leb_spec 0 (Z.of_nat k)); [|lia].
  destruct (Z.ltb_spec (Z.of_nat k) (Z.of_nat (length l))); [|lia].
  simpl. rewrite Nat2Z.id, H. reflexivity.
Qed.

Lemma py_index_in_range {A} (l : list A) (i : Z) :
  (0 <= i < Z.of_nat (length l))%Z ->
  exists a, l !! Z.to_nat i = Some a /\ py_index l i = Ret a.
Proof.
  intros Hi.
  destruct (lookup_lt_is_Some_2 l (Z.to_nat i)) as [a Ha]; [lia|].
  exists a. split; [exact Ha|].
  rewrite <- (Z2Nat.id i) by lia. apply py_index_nat, Ha.
Qed.

(** [l[-1]] is the last element. *)
Lemma py_index_minus_one {A} (l : list A) (a : A) :
  last l = Some a -> py_index l (-1) = Ret a.
Proof.
  intros H. unfold py_index. rewrite last_lookup in H.
  pose proof (lookup_lt_Some _ _ _ H) as Hlt.
  change (-1 <? 0)%Z with true. cbv iota.
  rewrite (proj2 (Z.leb_le _ _)) by lia.
  rewrite (proj2 (Z.ltb_lt _ _)) by lia.
  simpl. replace (Z.to_nat (-1 + Z.of_nat (length l))) with (pred (length l)) by lia.
  rewrite H. reflexivity.
Qed.

Lemma py_range_empty (a b : Z) : (b <= a)%Z -> py_range a b = [].
Proof.
  intros H. unfold py_range. replace (Z.to_nat (b - a)) with 0%nat by lia.
  reflexivity.
Qed.

Lemma py_range_cons (a b : Z) :
  (a < b)%Z -> py_range a b = a :: py_range (a + 1) b.
Proof.
  intros H. unfold py_range.
  replace (Z.to_nat (b - a)) with (S (Z.to_nat (b - (a + 1)))) by lia.
  simpl. f_equal; [lia|].
  rewrite <- seq_shift, map_map. apply map_ext. intros k. lia.
Qed.

Lemma py_slice_length {A} (l : list A) (a b : Z) :
  (0 <= a <= Z.of_nat (length l))%Z -> (a <= b)%Z ->
  length (py_slice l a b) = Z.to_nat (Z.min b (Z.of_nat (length l)) - a).
Proof.
  intros Ha Hb. unfold py_slice, py_clamp.
  destruct (Z.ltb_spec a 0); [lia|].
  destruct (Z.ltb_spec b 0); [lia|].
  rewrite length_take, length_drop. lia.
Qed.

Lemma py_slice_lookup {A} (l : list A) (a b : Z) (i : nat) :
  (0 <= a)%Z ->
  (i < length (py_slice l a b))%nat ->
  py_slice l a b !! i = l !! (Z.to_nat a + i)%nat.
Proof.
  intros Ha Hi. unfold py_slice, py_clamp in *.
  destruct (Z.ltb_spec a 0); [lia|].
  rewrite length_take, length_drop in Hi.
  rewrite lookup_take_lt by lia.
  rewrite lookup_drop. f_equal. lia.
Qed.

Lemma enumerate_lookup {A} (l : list A) (i : nat) :
  enumerate l !! i = (fun a => (Z.of_nat i, a)) <$> l !! i.
Proof. unfold enumerate. rewrite list_lookup_imap. reflexivity. Qed.

(** ** The distance helper *)

Lemma dl_nonneg (a b : Point.t) : (0 <= dl a b)%R.
Proof. apply sqrt_pos. Qed.

Lemma dl_same (a : Point.t) : dl a a = 0%R.
Proof.
  unfold dl.
  replace ((Point.x a - Point.x a) ^ 2 + (Point.y a - Point.y a) ^ 2
           + (Point.z a - Point.z a) ^ 2)%R with 0%R by ring.
  apply sqrt_0.
Qed.

Lemma polyline_length_nonneg (ps : list Point.t) : (0 <= polyline_length ps)%R.
Proof.
  induction ps as [|a [|b tl] IH]; simpl; try lra.
  pose proof (dl_nonneg a b). simpl in IH. lra.
Qed.

(** An empty range: the loop body never runs. *)
Lemma distance_reversed (waypoints : list Waypoint.t) (wp1 wp2 : Z) :
  (wp2 < wp1)%Z -> distance waypoints wp1 wp2 = Ret 0%R.
Proof.
  intros H. unfold distance. rewrite py_range_empty by lia. reflexivity.
Qed.

(** The loop from the second iteration on: [wp1] is one behind the next
    index, and each pass adds one segment. *)
Lemma distance_loop_segments (waypoints : list Waypoint.t) (m : nat) :
  forall (p : nat) (acc : R),
    (p + m < length waypoints)%nat ->
    distance_loop waypoints (Z.of_nat p)
      (py_range (Z.of_nat p + 1) (Z.of_nat p + 1 + Z.of_nat m)) acc
    = Ret (acc + polyline_length
                   (map position_of (take (S m) (drop p waypoints))))%R.
Proof.
  induction m as [|m IH]; intros p acc Hlen.
  - rewrite py_range_empty by lia. simpl.
    destruct (drop p waypoints) as [|a tl]; simpl; f_equal; lra.
  - rewrite py_range_cons by lia. simpl.
    destruct (lookup_lt_is_Some_2 waypoints p) as [a Ha]; [lia|].
    destruct (lookup_lt_is_Some_2 waypoints (S p)) as [b Hb]; [lia|].
    rewrite (py_index_nat _ _ _ Ha).
    replace (Z.of_nat p + 1)%Z with (Z.of_nat (S p)) by lia.
    rewrite (py_index_nat _ _ _ Hb). simpl.
    replace (Z.of_nat (S p) + Z.of_nat (S m))%Z
      with (Z.of_nat (S p) + 1 + Z.of_nat m)%Z by lia.
    rewrite IH by lia. f_equal.
    rewrite (drop_S _ _ _ Ha). rewrite (drop_S _ _ _ Hb).
    simpl. lra.
Qed.

(** [distance] on a forward range never leaves the list and returns the
    length of the polyline through the waypoints [wp1 .. wp2]. *)
Lemma distance_forward (waypoints : list Waypoint.t) (wp1 wp2 : Z) :
  (0 <= wp1 <= wp2)%Z -> (wp2 < Z.of_nat (length waypoints))%Z ->
  distance waypoints wp1 wp2
  = Ret (polyline_length
           (map position_of (py_slice waypoints wp1 (wp2 + 1)))).
Proof.
  intros H1 H2. unfold distance.
  rewrite py_range_cons by lia. simpl.
  destruct (py_index_in_range waypoints wp1) as (a & Ha & ->); [lia|]. simpl.
  rewrite dl_same.
  pose proof (distance_loop_segments waypoints (Z.to_nat (wp2 - wp1))
                (Z.to_nat wp1) (0 + 0)%R) as L.
  rewrite !Z2Nat.id in L by lia.
  replace (wp1 + 1 + (wp2 - wp1))%Z with (wp2 + 1)%Z in L by lia.
  rewrite L by lia. f_equal.
  unfold py_slice, py_clamp.
  destruct (Z.ltb_spec wp1 0); [lia|].
  destruct (Z.ltb_spec (wp2 + 1) 0); [lia|].
  replace (Z.to_nat (Z.min (wp2 + 1) (Z.of_nat (length waypoints))
                     - Z.min wp1 (Z.of_nat (length waypoints))))
    with (S (Z.to_nat (wp2 - wp1))) by lia.
  replace (Z.to_nat (Z.min wp1 (Z.of_nat (length waypoints))))
    with (Z.to_nat wp1) by lia.
  lra.
Qed.

(** On an empty or forward range the helper returns, with a sum of segment
    lengths that is not negative. *)
Lemma distance_returns (waypoints : list Waypoint.t) (wp1 wp2 : Z) :
  (0 <= wp1)%Z -> (wp2 < Z.of_nat (length waypoints))%Z ->
  exists d, distance waypoints wp1 wp2 = Ret d /\ (0 <= d)%R.
Proof.
  intros H1 H2. destruct (Z_lt_le_dec wp2 wp1) as [Hlt|Hle].
  - exists 0%R. split; [apply distance_reversed, Hlt|lra].
  - eexists. split; [apply distance_forward; lia|].
    apply polyline_length_nonneg.
Qed.

Lemma distance_at_stop (waypoints : list Waypoint.t) (wp : Z) :
  (0 <= wp < Z.of_nat (length waypoints))%Z ->
  distance waypoints wp wp = Ret 0%R.
Proof.
  intros H. rewrite distance_forward by lia. f_equal.
  destruct (lookup_lt_is_Some_2 waypoints (Z.to_nat wp)) as [a Ha]; [lia|].
  unfold py_slice, py_clamp.
  destruct (Z.ltb_spec wp 0); [lia|].
  destruct (Z.ltb_spec (wp + 1) 0); [lia|].
  replace (Z.to_nat (Z.min (wp + 1) (Z.of_nat (length waypoints))
                     - Z.min wp (Z.of_nat (length waypoints))))
    with 1%nat by lia.
  replace (Z.to_nat (Z.min wp (Z.of_nat (length waypoints))))
    with (Z.to_nat wp) by lia.
  rewrite (drop_S _ _ _ Ha). reflexivity.
Qed.

(** Starting one waypoint later drops the first segment. *)
Lemma polyline_length_drop_first (waypoints : list Waypoint.t) (p m : nat) :
  (S p + m < length waypoints)%nat ->
  (polyline_length (map position_of (take (S m) (drop (S p) waypoints)))
   <= polyline_length (map position_of (take (S (S m)) (drop p waypoints))))%R.
Proof.
  intros H.
  destruct (lookup_lt_is_Some_2 waypoints p) as [a Ha]; [lia|].
  destruct (lookup_lt_is_Some_2 waypoints (S p)) as [b Hb]; [lia|].
  rewrite (drop_S _ _ _ Ha). rewrite (drop_S _ _ _ Hb). simpl.
  pose proof (dl_nonneg (position_of a) (position_of b)). lra.
Qed.

(** The distance to a fixed index shrinks as the start moves toward it. *)
Lemma distance_antitone (waypoints : list Waypoint.t) (i j s : Z) (di dj : R) :
  (0 <= i <= j)%Z -> (j <= s)%Z -> (s < Z.of_nat (length waypoints))%Z ->
  distance waypoints i s = Ret di ->
  distance waypoints j s = Ret dj ->
  (dj <= di)%R.
Proof.
  intros Hij Hjs Hs Hi Hj.
  assert (forall (k : nat) (p : Z) d d',
             (0 <= p)%Z -> (p + Z.of_nat k <= s)%Z ->
             distance waypoints p s = Ret d ->
             distance waypoints (p + Z.of_nat k) s = Ret d' ->
             (d' <= d)%R) as Gen.
  { induction k as [|k IH]; intros p d d' Hp Hk Hd Hd'.
    - rewrite Z.add_0_r in Hd'. rewrite Hd in Hd'. inversion Hd'. lra.
    - destruct (distance_returns waypoints (p + 1) s) as (d1 & Hd1 & _);
        [lia|lia|].
      apply Rle_trans with d1.
      + apply (IH (p + 1)%Z); [lia|lia|exact Hd1|].
        rewrite <- Hd'. f_equal. lia.
      + rewrite distance_forward in Hd, Hd1 by lia.
        inversion Hd. inversion Hd1. subst d d1. clear Hd Hd1.
        pose proof (polyline_length_drop_first waypoints (Z.to_nat p)
                      (Z.to_nat (s - (p + 1)))) as L.
        unfold py_slice, py_clamp.
        destruct (Z.ltb_spec p 0); [lia|].
        destruct (Z.ltb_spec (p + 1) 0); [lia|].
        destruct (Z.ltb_spec (s + 1) 0); [lia|].
        replace (Z.to_nat (Z.min (s + 1) (Z.of_nat (length waypoints))
                           - Z.min (p + 1) (Z.of_nat (length waypoints))))
          with (S (Z.to_nat (s - (p + 1)))) by lia.
        replace (Z.to_nat (Z.min (s + 1) (Z.of_nat (length waypoints))
                           - Z.min p (Z.of_nat (length waypoints))))
          with (S (S (Z.to_nat (s - (p + 1))))) by lia.
        replace (Z.to_nat (Z.min (p + 1) (Z.of_nat (length waypoints))))
          with (S (Z.to_nat p)) by lia.
        replace (Z.to_nat (Z.min p (Z.of_nat (length waypoints))))
          with (Z.to_nat p) by lia.
        apply L. lia. }
  apply (Gen (Z.to_nat (j - i)) i); [lia|lia|exact Hi|].
  rewrite <- Hj. f_equal. lia.
Qed.

(** *** Straight lines of unit-spaced points *)

Lemma unit_spaced_consecutive (waypoints : list Waypoint.t) :
  unit_spaced_line waypoints ->
  forall (k : nat) (a b : Waypoint.t),
    waypoints !! k = Some a -> waypoints !! S k = Some b ->
    dl (position_of a) (position_of b) = 1%R.
Proof.
  intros (o & u & Hu & Hpos) k a b Ha Hb.
  rewrite (Hpos _ _ Ha), (Hpos _ _ Hb). unfold dl.
  cbn [Point.x Point.y Point.z]. rewrite S_INR.
  transitivity (sqrt (Point.x u ^ 2 + Point.y u ^ 2 + Point.z u ^ 2));
    [f_equal; ring | rewrite Hu; apply sqrt_1].
Qed.

Lemma polyline_length_unit_spaced (waypoints : list Waypoint.t) :
  unit_spaced_line waypoints ->
  forall (m p : nat), (p + m < length waypoints)%nat ->
    polyline_length (map position_of (take (S m) (drop p waypoints))) = INR m.
Proof.
  intros Hline. induction m as [|m IH]; intros p Hlen.
  - destruct (drop p waypoints) as [|a tl]; reflexivity.
  - destruct (lookup_lt_is_Some_2 waypoints p) as [a Ha]; [lia|].
    destruct (lookup_lt_is_Some_2 waypoints (S p)) as [b Hb]; [lia|].
    specialize (IH (S p)). rewrite (drop_S _ _ _ Ha).
    rewrite (drop_S _ _ _ Hb) in IH |- *.
    set (tl := drop (S (S p)) waypoints) in *.
    change (polyline_length (map position_of (take (S (S m)) (a :: b :: tl))))
      with (dl (position_of a) (position_of b)
            + polyline_length (map position_of (take (S m) (b :: tl))))%R.
    rewrite IH by lia.
    rewrite (unit_spaced_consecutive _ Hline _ _ _ Ha Hb).
    rewrite S_INR. lra.
Qed.

(** *** The line used in the examples *)

Lemma line_length (n : nat) (v : R) : length (line n v) = n.
Proof. unfold line. rewrite length_map. apply length_seq. Qed.

Lemma line_lookup (n : nat) (v : R) (k : nat) (w : Waypoint.t) :
  line n v !! k = Some w -> w = wp_at (INR k) v.
Proof.
  unfold line. rewrite list_lookup_fmap.
  destruct (seq 0 n !! k) as [k'|] eqn:E; [|discriminate].
  apply lookup_seq in E. simpl in E. destruct E as [-> _].
  intros H. inversion H. reflexivity.
Qed.

Lemma line_unit_spaced (n : nat) (v : R) : unit_spaced_line (line n v).
Proof.
  exists (Point.mk 0 0 0), (Point.mk 1 0 0). split; [simpl; ring|].
  intros k w Hk. rewrite (line_lookup _ _ _ _ Hk).
  unfold position_of, wp_at. simpl. f_equal; ring.
Qed.

Lemma get_set_velocity (p : PoseStamped.t) (t : TwistStamped.t) (v : R) :
  get_waypoint_velocity (Waypoint.mk p (set_linear_x t v)) = v.
Proof. reflexivity. Qed.

Lemma line_speed (n : nat) (v : R) (k : nat) (w : Waypoint.t) :
  line n v !! k = Some w -> get_waypoint_velocity w = v.
Proof. intros H. rewrite (line_lookup _ _ _ _ H). reflexivity. Qed.

(** ** The speed profiler *)

Lemma clamp_low_zero : clamp_low 0 = 0%R.
Proof. unfold clamp_low. destruct (Rlt_dec 0 1); lra. Qed.

Lemma clamp_low_mono (a b : R) : (a <= b)%R -> (clamp_low a <= clamp_low b)%R.
Proof.
  intros H. unfold clamp_low.
  destruct (Rlt_dec a 1), (Rlt_dec b 1); lra.
Qed.

(** Whatever the sign of the deceleration, a shorter distance never gives a
    larger target speed. *)
Lemma target_speed_mono (m d1 d2 : R) :
  (0 <= d2 <= d1)%R -> (clamp_low (m * d2) <= clamp_low (m * d1))%R.
Proof.
  intros H. destruct (Rle_dec 0 m) as [Hm|Hm].
  - apply clamp_low_mono. nra.
  - unfold clamp_low.
    destruct (Rlt_dec (m * d2) 1), (Rlt_dec (m * d1) 1); nra.
Qed.

(** The loop appends one waypoint per item, each the result of its step. *)
Lemma decelerate_loop_steps (self : WaypointUpdater)
    (waypoints : list Waypoint.t) (closest_idx : Z)
    (items : list (Z * Waypoint.t)) :
  forall temp : list Waypoint.t,
    Forall (fun it => returns (decelerate_step self waypoints closest_idx it.1 it.2))
           items ->
    exists out,
      decelerate_loop self waypoints closest_idx items temp = Ret (temp ++ out)
      /\ Forall2 (fun it p =>
                    decelerate_step self waypoints closest_idx it.1 it.2 = Ret p)
                 items out.
Proof.
  induction items as [|[i wp] items IH]; intros temp Hall.
  - exists []. split; [simpl; rewrite app_nil_r; reflexivity|constructor].
  - inversion Hall as [|? ? [p Hp] Hrest]; subst. simpl in Hp.
    destruct (IH (temp ++ [p]) Hrest) as (out & Hout & Hsteps).
    exists (p :: out). split.
    + simpl. rewrite Hp. simpl. rewrite Hout, <- app_assoc. reflexivity.
    + constructor; [exact Hp|exact Hsteps].
Qed.

Lemma stop_local_nonneg (self : WaypointUpdater) (closest_idx : Z) :
  (0 <= stop_local self closest_idx)%Z.
Proof. unfold stop_local. lia. Qed.

(** What [decelerate_waypoints] returns when the stop index lies inside the
    window: one new waypoint per input waypoint, carrying the pose of the
    input and the clamped, capped speed. *)
Lemma decelerate_waypoints_result (self : WaypointUpdater)
    (waypoints : list Waypoint.t) (closest_idx : Z) :
  (stop_local self closest_idx < Z.of_nat (length waypoints))%Z ->
  exists out,
    decelerate_waypoints self waypoints closest_idx = Ret out
    /\ length out = length waypoints
    /\ forall (i : nat) (wp : Waypoint.t),
         waypoints !! i = Some wp ->
         exists d,
           distance waypoints (Z.of_nat i) (stop_local self closest_idx) = Ret d
           /\ (0 <= d)%R
           /\ out !! i =
                Some (Waypoint.mk (Waypoint.pose wp)
                        (set_linear_x (Waypoint.twist Waypoint.default)
                           (Rmin (clamp_low (max_deceleration self * d))
                                 (get_waypoint_velocity wp)))).
Proof.
  intros Hs.
  assert (forall i : nat, exists d,
             distance waypoints (Z.of_nat i) (stop_local self closest_idx) = Ret d
             /\ (0 <= d)%R) as Hdist.
  { intros i. apply distance_returns; lia. }
  destruct (decelerate_loop_steps self waypoints closest_idx
              (enumerate waypoints) []) as (out & Hout & Hsteps).
  { apply Forall_lookup_2. intros k [i wp] Hk.
    rewrite enumerate_lookup in Hk.
    destruct (waypoints !! k); [|discriminate]. inversion Hk; subst.
    destruct (Hdist k) as (d & Hd & _).
    unfold decelerate_step. simpl. rewrite Hd. simpl. eexists. reflexivity. }
  exists out. split; [exact Hout|].
  pose proof (Forall2_length _ _ _ Hsteps) as Hlen.
  unfold enumerate in Hlen. rewrite length_imap in Hlen.
  split; [lia|].
  intros i wp Hi. destruct (Hdist i) as (d & Hd & Hd0).
  exists d. split; [exact Hd|]. split; [exact Hd0|].
  assert (enumerate waypoints !! i = Some (Z.of_nat i, wp)) as Hit.
  { rewrite enumerate_lookup, Hi. reflexivity. }
  destruct (Forall2_lookup_l _ _ _ _ _ Hsteps Hit) as (p & Hp & Hstep).
  rewrite Hp. f_equal. unfold decelerate_step in Hstep. simpl in Hstep.
  rewrite Hd in Hstep. simpl in Hstep. inversion Hstep. reflexivity.
Qed.

(** C6. For indices [0 <= i <= j < len(waypoints)], [distance] returns the
    sum of the Euclidean 3-D distances between consecutive waypoints from
    index [i] to index [j] inclusive; the sum is not negative; and on a
    straight line of unit-spaced points it equals [j - i]. *)
Theorem distance_is_polyline_length (waypoints : list Waypoint.t) (i j : Z) :
  (0 <= i <= j)%Z -> (j < Z.of_nat (length waypoints))%Z ->
  exists d,
    distance waypoints i j = Ret d
    /\ d = polyline_length (map position_of (py_slice waypoints i (j + 1)))
    /\ (0 <= d)%R
    /\ (unit_spaced_line waypoints -> d = IZR (j - i)).
Proof.
  intros Hij Hj. eexists. split; [apply distance_forward; lia|].
  split; [reflexivity|]. split; [apply polyline_length_nonneg|].
  intros Hline. unfold py_slice, py_clamp.
  destruct (Z.ltb_spec i 0); [lia|].
  destruct (Z.ltb_spec (j + 1) 0); [lia|].
  replace (Z.to_nat (Z.min (j + 1) (Z.of_nat (length waypoints))
                     - Z.min i (Z.of_nat (length waypoints))))
    with (S (Z.to_nat (j - i))) by lia.
  replace (Z.to_nat (Z.min i (Z.of_nat (length waypoints))))
    with (Z.to_nat i) by lia.
  rewrite (polyline_length_unit_spaced _ Hline) by lia.
  rewrite INR_IZR_INZ. f_equal. lia.
Qed.

(** On the line of ten unit-spaced waypoints, from index 2 to index 7. *)
Lemma distance_is_polyline_length_witness :
  exists d,
    distance (line 10 5) 2 7 = Ret d
    /\ d = polyline_length (map position_of (py_slice (line 10 5) 2 (7 + 1)))
    /\ (0 <= d)%R
    /\ (unit_spaced_line (line 10 5) -> d = IZR (7 - 2)).
Proof.
  apply (distance_is_polyline_length (line 10 5) 2 7).
  - lia.
  - rewrite line_length. lia.
Defined.

(** C10 (amended). [distance] is total where the profiler calls it: on a
    reversed range ([j < i]) the loop is empty and the result is exactly 0;
    on a forward range inside the list every access is in range and the
    result is not negative; hence at every offset past the stop index the
    profiler computes the target speed 0 and emits [min(0, cruise)], which
    is 0 for a cruise speed that is not negative. *)
Theorem distance_total (waypoints : list Waypoint.t) (i j : Z) :
  ((j < i)%Z -> distance waypoints i j = Ret 0%R)
  /\ ((0 <= i <= j)%Z -> (j < Z.of_nat (length waypoints))%Z ->
      exists d, distance waypoints i j = Ret d /\ (0 <= d)%R)
  /\ (forall (self : WaypointUpdater) (closest_idx : Z) (wp : Waypoint.t),
        (stop_local self closest_idx < i)%Z ->
        exists p,
          decelerate_step self waypoints closest_idx i wp = Ret p
          /\ get_waypoint_velocity p = Rmin 0 (get_waypoint_velocity wp)
          /\ ((0 <= get_waypoint_velocity wp)%R ->
              get_waypoint_velocity p = 0%R)).
Proof.
  split; [apply distance_reversed|]. split.
  - intros Hij Hj. apply distance_returns; lia.
  - intros self closest_idx wp Hs. unfold decelerate_step.
    rewrite distance_reversed by exact Hs. simpl.
    rewrite Rmult_0_r, clamp_low_zero. eexists. split; [reflexivity|].
    rewrite get_set_velocity. split; [reflexivity|].
    intros Hv. apply Rmin_left. exact Hv.
Qed.

(** The reversed walk from index 7 to index 2 on the line of ten. *)
Lemma distance_total_witness : distance (line 10 5) 7 2 = Ret 0%R.
Proof.
  apply (proj1 (distance_total (line 10 5) 7 2)). lia.
Defined.

(** C2. When the stop index lies within the window, the profiler returns one
    waypoint per waypoint of the window, and the waypoint at local offset
    [i] gets the speed [min(v, cruise_i)], where [v] is
    [max_decel * distance(window, i, stop_local)] replaced by 0 when it is
    below 1, and [stop_local = max(stop_idx - ahead_idx - 3, 0)]. *)
Theorem decelerate_waypoints_speed (self : WaypointUpdater)
    (window : list Waypoint.t) (ahead_idx : Z) :
  (stopline_wp_idx self < ahead_idx + Z.of_nat (length window))%Z ->
  exists out,
    decelerate_waypoints self window ahead_idx = Ret out
    /\ length out = length window
    /\ forall (i : nat) (wp : Waypoint.t),
         window !! i = Some wp ->
         exists (dist : R) (p : Waypoint.t),
           distance window (Z.of_nat i)
             (Z.max (stopline_wp_idx self - ahead_idx - 3) 0) = Ret dist
           /\ out !! i = Some p
           /\ get_waypoint_velocity p =
                Rmin (if Rlt_dec (max_deceleration self * dist) 1
                      then 0%R
                      else (max_deceleration self * dist)%R)
                     (get_waypoint_velocity wp).
Proof.
  intros Hwithin. destruct window as [|w0 window].
  - exists []. split; [reflexivity|]. split; [reflexivity|].
    intros i wp Hi. rewrite lookup_nil in Hi. discriminate.
  - destruct (decelerate_waypoints_result self (w0 :: window) ahead_idx)
      as (out & Hout & Hlen & Hspec).
    { unfold stop_local. simpl length in *. lia. }
    exists out. split; [exact Hout|]. split; [exact Hlen|].
    intros i wp Hi. destruct (Hspec i wp Hi) as (d & Hd & _ & Hp).
    exists d. eexists. split; [exact Hd|]. split; [exact Hp|].
    apply get_set_velocity.
Qed.

(** Ten unit-spaced waypoints at cruise speed 5, the vehicle at index 0,
    the stop line at index 9. *)
Lemma decelerate_waypoints_speed_witness :
  exists out,
    decelerate_waypoints (node_at (line 10 5) 0 0 9 10 1) (line 10 5) 0 = Ret out
    /\ length out = length (line 10 5)
    /\ forall (i : nat) (wp : Waypoint.t),
         line 10 5 !! i = Some wp ->
         exists (dist : R) (p : Waypoint.t),
           distance (line 10 5) (Z.of_nat i) (Z.max (9 - 0 - 3) 0) = Ret dist
           /\ out !! i = Some p
           /\ get_waypoint_velocity p =
                Rmin (if Rlt_dec (1 * dist) 1 then 0%R else (1 * dist)%R)
                     (get_waypoint_velocity wp).
Proof.
  apply (decelerate_waypoints_speed (node_at (line 10 5) 0 0 9 10 1)
           (line 10 5) 0).
  rewrite line_length. simpl. lia.
Defined.

Lemma dl_wp_at (a b v v' : R) :
  dl (position_of (wp_at a v)) (position_of (wp_at b v')) = Rabs (a - b).
Proof.
  unfold dl, position_of, wp_at. simpl.
  replace ((a - b) * ((a - b) * 1) + (0 - 0) * ((0 - 0) * 1)
           + (0 - 0) * ((0 - 0) * 1))%R with (Rsqr (a - b))
    by (unfold Rsqr; ring).
  apply sqrt_Rsqr_abs.
Qed.

Lemma speeds_lookup (waypoints : list Waypoint.t) (i : nat) (v : R) :
  speeds waypoints !! i = Some v <->
  exists p, waypoints !! i = Some p /\ get_waypoint_velocity p = v.
Proof.
  unfold speeds. rewrite list_lookup_fmap. split.
  - destruct (waypoints !! i) as [p|]; [|discriminate].
    intros H. inversion H. exists p. split; reflexivity.
  - intros (p & -> & <-). reflexivity.
Qed.

Lemma Rmin_mono (a b c d : R) :
  (a <= c)%R -> (b <= d)%R -> (Rmin a b <= Rmin c d)%R.
Proof.
  intros H1 H2. unfold Rmin.
  destruct (Rle_dec a b), (Rle_dec c d); lra.
Qed.

(** C3, as the code has it. The claim fails when the cruise speeds of the
    window rise: on [ramp], with the stop line at index 5 and the vehicle at
    index 0, the emitted speed is 1 at offset 0 and 5 at offset 1. It also
    fails for a negative cruise speed: on [reversing] the speed emitted at
    offset 1, past the stop index 0, is -1. *)
Lemma decelerate_waypoints_not_monotone :
  (exists out v0 v1,
      decelerate_waypoints (node_at ramp 0 0 5 30 1) ramp 0 = Ret out
      /\ stop_local (node_at ramp 0 0 5 30 1) 0 = 2%Z
      /\ speeds out !! 0%nat = Some v0
      /\ speeds out !! 1%nat = Some v1
      /\ (v0 < v1)%R)
  /\ (exists out v1,
      decelerate_waypoints (node_at reversing 0 0 1 30 1) reversing 0 = Ret out
      /\ stop_local (node_at reversing 0 0 1 30 1) 0 = 0%Z
      /\ speeds out !! 1%nat = Some v1
      /\ v1 <> 0%R).
Proof.
  split.
  - destruct (decelerate_waypoints_result (node_at ramp 0 0 5 30 1) ramp 0)
      as (out & Hout & _ & Hspec); [reflexivity|].
    destruct (Hspec 0%nat _ eq_refl) as (d0 & Hd0 & _ & Hp0).
    destruct (Hspec 1%nat _ eq_refl) as (d1 & Hd1 & _ & Hp1).
    change (stop_local (node_at ramp 0 0 5 30 1) 0) with 2%Z in Hd0, Hd1.
    rewrite distance_forward in Hd0, Hd1 by (simpl; lia).
    change (py_slice ramp (Z.of_nat 0) (2 + 1))
      with [wp_at 0 1; wp_at 10 5; wp_at 20 5] in Hd0.
    change (py_slice ramp (Z.of_nat 1) (2 + 1))
      with [wp_at 10 5; wp_at 20 5] in Hd1.
    simpl polyline_length in Hd0, Hd1.
    fold (position_of (wp_at 0 1)) in Hd0.
    fold (position_of (wp_at 10 5)) in Hd0, Hd1.
    fold (position_of (wp_at 20 5)) in Hd0, Hd1.
    rewrite !dl_wp_at in Hd0, Hd1.
    inversion Hd0 as [E0]. inversion Hd1 as [E1]. clear Hd0 Hd1.
    do 3 eexists. split; [exact Hout|]. split; [reflexivity|].
    split; [apply speeds_lookup; eexists; split; [exact Hp0|reflexivity]|].
    split; [apply speeds_lookup; eexists; split; [exact Hp1|reflexivity]|].
    rewrite !get_set_velocity. subst d0 d1. simpl max_deceleration.
    unfold get_waypoint_velocity, wp_at, set_linear_x. simpl.
    unfold clamp_low, Rmin, Rabs.
    repeat match goal with
           | |- context [Rcase_abs ?x] => destruct (Rcase_abs x)
           | |- context [Rlt_dec ?x ?y] => destruct (Rlt_dec x y)
           | |- context [Rle_dec ?x ?y] => destruct (Rle_dec x y)
           end; lra.
  - destruct (decelerate_waypoints_result (node_at reversing 0 0 1 30 1)
                reversing 0) as (out & Hout & _ & Hspec); [reflexivity|].
    destruct (Hspec 1%nat _ eq_refl) as (d1 & Hd1 & _ & Hp1).
    change (stop_local (node_at reversing 0 0 1 30 1) 0) with 0%Z in Hd1.
    rewrite distance_reversed in Hd1 by (simpl; lia).
    inversion Hd1 as [E1]. clear Hd1. subst d1.
    do 2 eexists. split; [exact Hout|]. split; [reflexivity|].
    split; [apply speeds_lookup; eexists; split; [exact Hp1|reflexivity]|].
    rewrite get_set_velocity. simpl max_deceleration.
    unfold get_waypoint_velocity, wp_at, set_linear_x. simpl.
    rewrite Rmult_0_r, clamp_low_zero. unfold Rmin.
    destruct (Rle_dec 0 (-1)); lra.
Qed.

(** C3 (amended). When the stop index lies within the window, the cruise
    speeds do not rise over the offsets up to [stop_local], and the cruise
    speeds from [stop_local] on are not negative, the emitted speeds do
    not rise as the offset grows toward [stop_local], and the emitted speed
    is exactly 0 at every offset [i >= stop_local]. *)
Theorem decelerate_waypoints_monotone (self : WaypointUpdater)
    (window : list Waypoint.t) (ahead_idx : Z) :
  (stopline_wp_idx self < ahead_idx + Z.of_nat (length window))%Z ->
  (forall (i j : nat) (wi wj : Waypoint.t),
      (i <= j)%nat -> (Z.of_nat j <= stop_local self ahead_idx)%Z ->
      window !! i = Some wi -> window !! j = Some wj ->
      (get_waypoint_velocity wj <= get_waypoint_velocity wi)%R) ->
  (forall (i : nat) (wi : Waypoint.t),
      (stop_local self ahead_idx <= Z.of_nat i)%Z ->
      window !! i = Some wi -> (0 <= get_waypoint_velocity wi)%R) ->
  exists out,
    decelerate_waypoints self window ahead_idx = Ret out
    /\ length out = length window
    /\ (forall (i j : nat) (vi vj : R),
          (i <= j)%nat -> (Z.of_nat j <= stop_local self ahead_idx)%Z ->
          speeds out !! i = Some vi -> speeds out !! j = Some vj ->
          (vj <= vi)%R)
    /\ (forall (i : nat) (vi : R),
          (stop_local self ahead_idx <= Z.of_nat i)%Z ->
          speeds out !! i = Some vi -> vi = 0%R).
Proof.
  intros Hwithin Hcruise Hpos. destruct window as [|w0 window].
  { exists []. split; [reflexivity|]. split; [reflexivity|].
    split; intros; unfold speeds in *; simpl in *; discriminate. }
  set (w := w0 :: window) in *.
  assert (stop_local self ahead_idx < Z.of_nat (length w))%Z as Hs.
  { unfold stop_local. subst w. simpl length in *. lia. }
  pose proof (stop_local_nonneg self ahead_idx) as Hs0.
  destruct (decelerate_waypoints_result self w ahead_idx Hs)
    as (out & Hout & Hlen & Hspec).
  assert (forall (i : nat) (vi : R), speeds out !! i = Some vi ->
            exists wi d,
              w !! i = Some wi
              /\ distance w (Z.of_nat i) (stop_local self ahead_idx) = Ret d
              /\ (0 <= d)%R
              /\ vi = Rmin (clamp_low (max_deceleration self * d))
                           (get_waypoint_velocity wi)) as Hemit.
  { intros i vi Hvi. apply speeds_lookup in Hvi as (p & Hp & <-).
    destruct (lookup_lt_is_Some_2 w i) as [wi Hwi].
    { rewrite <- Hlen. eapply lookup_lt_Some, Hp. }
    destruct (Hspec i wi Hwi) as (d & Hd & Hd0 & Hp').
    rewrite Hp in Hp'. inversion Hp'. exists wi, d.
    rewrite get_set_velocity. auto. }
  exists out. split; [exact Hout|]. split; [exact Hlen|]. split.
  - intros i j vi vj Hij Hjs Hvi Hvj.
    destruct (Hemit i vi Hvi) as (wi & di & Hwi & Hdi & Hdi0 & ->).
    destruct (Hemit j vj Hvj) as (wj & dj & Hwj & Hdj & Hdj0 & ->).
    apply Rmin_mono.
    + apply target_speed_mono. split; [exact Hdj0|].
      apply (distance_antitone w (Z.of_nat i) (Z.of_nat j)
               (stop_local self ahead_idx)); auto; lia.
    + apply (Hcruise i j); auto.
  - intros i vi His Hvi.
    destruct (Hemit i vi Hvi) as (wi & d & Hwi & Hd & _ & ->).
    assert (d = 0%R) as ->.
    { destruct (Z.eq_dec (stop_local self ahead_idx) (Z.of_nat i)) as [E|E].
      - rewrite E in Hd. rewrite distance_at_stop in Hd; [congruence|].
        pose proof (lookup_lt_Some _ _ _ Hwi). lia.
      - rewrite distance_reversed in Hd by lia. congruence. }
    rewrite Rmult_0_r, clamp_low_zero. apply Rmin_left.
    apply (Hpos i wi); auto.
Qed.

(** Ten unit-spaced waypoints at cruise speed 5, the vehicle at index 0,
    the stop line at index 9. *)
Lemma decelerate_waypoints_monotone_witness :
  exists out,
    decelerate_waypoints (node_at (line 10 5) 0 0 9 10 1) (line 10 5) 0 = Ret out
    /\ length out = length (line 10 5)
    /\ (forall (i j : nat) (vi vj : R),
          (i <= j)%nat ->
          (Z.of_nat j <= stop_local (node_at (line 10 5) 0 0 9 10 1) 0)%Z ->
          speeds out !! i = Some vi -> speeds out !! j = Some vj ->
          (vj <= vi)%R)
    /\ (forall (i : nat) (vi : R),
          (stop_local (node_at (line 10 5) 0 0 9 10 1) 0 <= Z.of_nat i)%Z ->
          speeds out !! i = Some vi -> vi = 0%R).
Proof.
  apply (decelerate_waypoints_monotone (node_at (line 10 5) 0 0 9 10 1)
           (line 10 5) 0).
  - rewrite line_length. simpl. lia.
  - intros i j wi wj _ _ Hi Hj.
    rewrite (line_speed _ _ _ _ Hi), (line_speed _ _ _ _ Hj). lra.
  - intros i wi _ Hi. rewrite (line_speed _ _ _ _ Hi). lra.
Defined.

(** ** The localizer *)

Lemma circular_prev_range (n i : Z) :
  (0 <= i < n)%Z -> (0 <= circular_prev n i < n)%Z.
Proof. intros H. unfold circular_prev. apply Z.mod_pos_bound. lia. Qed.

Lemma circular_next_range (n i : Z) :
  (0 <= i < n)%Z -> (0 <= circular_next n i < n)%Z.
Proof. intros H. unfold circular_next. apply Z.mod_pos_bound. lia. Qed.

(** [l[i - 1]] is the circular predecessor of [l[i]]: Python reads index
    [-1] as the last element. *)
Lemma py_index_prev {A} (l : list A) (i : Z) :
  (0 <= i < Z.of_nat (length l))%Z ->
  exists a,
    l !! Z.to_nat (circular_prev (Z.of_nat (length l)) i) = Some a
    /\ py_index l (i - 1) = Ret a.
Proof.
  intros H. destruct (Z.eq_dec i 0%Z) as [->|Hne].
  - unfold circular_prev.
    replace ((0 - 1) mod Z.of_nat (length l))%Z
      with (Z.of_nat (length l) - 1)%Z.
    2:{ apply (Z.mod_unique _ _ (-1)%Z); lia. }
    destruct (lookup_lt_is_Some_2 l (pred (length l))) as [a Ha]; [lia|].
    exists a. split.
    + rewrite <- Ha. f_equal. lia.
    + apply py_index_minus_one. rewrite last_lookup. exact Ha.
  - unfold circular_prev. rewrite Z.mod_small by lia.
    destruct (py_index_in_range l (i - 1)) as (a & Ha & Hidx); [lia|].
    exists a. split; assumption.
Qed.

(** What [get_closest_waypoint_idx] returns once a path is loaded and the
    index answers with a waypoint of the path. *)
Lemma get_closest_waypoint_idx_result (self : WaypointUpdater)
    (path : list Waypoint.t) (p : PoseStamped.t) (tree : KDTree) :
  path_loaded self path ->
  pose self = Some p ->
  waypoints_tree self = Some tree ->
  let n := Z.of_nat (length path) in
  let pos := (Point.x (Pose.position (PoseStamped.pose p)),
              Point.y (Pose.position (PoseStamped.pose p))) in
  let c := (query tree pos).2 in
  (0 <= c < n)%Z ->
  exists C P : Waypoint.t,
    path !! Z.to_nat c = Some C
    /\ path !! Z.to_nat (circular_prev n c) = Some P
    /\ get_closest_waypoint_idx self =
         Ret (if Rgt_dec (np_dot (np_sub (xy C) (xy P)) (np_sub pos (xy C))) 0
              then circular_next n c
              else c).
Proof.
  intros [_ H2d] Hpose Htree n pos c Hc.
  assert (length (map xy path) = length path) as Hlen by apply length_map.
  destruct (py_index_in_range (map xy path) c) as (cc & Hcc & Hic);
    [rewrite Hlen; exact Hc|].
  destruct (py_index_prev (map xy path) c) as (pc & Hpc & Hip);
    [rewrite Hlen; exact Hc|].
  rewrite Hlen in Hpc. fold n in Hpc.
  rewrite list_lookup_fmap in Hcc, Hpc.
  destruct (path !! Z.to_nat c) as [C|] eqn:HC; [|discriminate].
  destruct (path !! Z.to_nat (circular_prev n c)) as [P|] eqn:HP; [|discriminate].
  inversion Hcc; inversion Hpc; subst cc pc.
  exists C, P. split; [reflexivity|]. split; [reflexivity|].
  unfold get_closest_waypoint_idx. rewrite Hpose, Htree, H2d. simpl.
  fold pos. fold c. rewrite Hic. simpl. rewrite Hip. simpl.
  destruct (Rgt_dec _ 0); [|reflexivity].
  unfold py_mod. rewrite Hlen. fold n.
  destruct (Z.eqb_spec n 0%Z); [lia|]. reflexivity.
Qed.

(** C1. With a path of at least two waypoints loaded and [C] the waypoint
    the spatial index answers with, the localizer takes [P] to be the
    waypoint before [C] in circular path order (the last waypoint when [C]
    has index 0) and returns the index of [C] when
    [dot(C - P, pose - C) <= 0], that index plus one modulo the path length
    otherwise; the result is the nearest index or the one that follows it
    on the circular path. *)
Theorem get_closest_waypoint_idx_ahead (self : WaypointUpdater)
    (path : list Waypoint.t) (p : PoseStamped.t) (tree : KDTree) :
  path_loaded self path ->
  pose self = Some p ->
  waypoints_tree self = Some tree ->
  (2 <= length path)%nat ->
  let n := Z.of_nat (length path) in
  let pos := (Point.x (Pose.position (PoseStamped.pose p)),
              Point.y (Pose.position (PoseStamped.pose p))) in
  let c := (query tree pos).2 in
  (0 <= c < n)%Z ->
  exists (C P : Waypoint.t) (r : Z),
    path !! Z.to_nat c = Some C
    /\ path !! Z.to_nat ((c - 1) mod n) = Some P
    /\ (c = 0%Z -> last path = Some P)
    /\ get_closest_waypoint_idx self = Ret r
    /\ r = (if Rle_dec (np_dot (np_sub (xy C) (xy P)) (np_sub pos (xy C))) 0
            then c
            else ((c + 1) mod n)%Z)
    /\ (0 <= r < n)%Z
    /\ (((r - c) mod n = 0)%Z \/ ((r - c) mod n = 1)%Z).
Proof.
  intros Hloaded Hpose Htree Hlen n pos c Hc.
  destruct (get_closest_waypoint_idx_result self path p tree Hloaded Hpose
              Htree Hc) as (C & P & HC & HP & Hres).
  fold n pos c in Hres, HP.
  exists C, P. eexists. split; [exact HC|]. split; [exact HP|]. split.
  { intros H0. rewrite last_lookup, <- HP. f_equal.
    unfold circular_prev. rewrite H0.
    replace ((0 - 1) mod n)%Z with (n - 1)%Z; [lia|].
    apply (Z.mod_unique _ _ (-1)%Z); lia. }
  split; [exact Hres|].
  set (val := np_dot (np_sub (xy C) (xy P)) (np_sub pos (xy C))).
  destruct (Rgt_dec val 0) as [Hgt|Hngt], (Rle_dec val 0) as [Hle|Hnle];
    try lra.
  - split; [reflexivity|]. split; [apply circular_next_range; exact Hc|].
    right. unfold circular_next. rewrite Zminus_mod_idemp_l.
    replace (c + 1 - c)%Z with 1%Z by lia. apply Z.mod_small. lia.
  - split; [reflexivity|]. split; [exact Hc|].
    left. rewrite Z.sub_diag. apply Z.mod_0_l. lia.
Qed.

(** [waypoints_cb] leaves the node with the path and its 2-D positions,
    and with the spatial index built from them when the constructor
    returns; when it raises, the tree held before stays. *)
Lemma waypoints_cb_loaded (KDTree_new : list (R * R) -> py KDTree)
    (self : WaypointUpdater) (waypoints : Lane.t) :
  path_loaded (waypoints_cb KDTree_new self waypoints).1
    (Lane.waypoints waypoints)
  /\ (forall tree,
        KDTree_new (map xy (Lane.waypoints waypoints)) = Ret tree ->
        waypoints_tree (waypoints_cb KDTree_new self waypoints).1 = Some tree
        /\ (waypoints_cb KDTree_new self waypoints).2 = Ret tt)
  /\ (forall e,
        KDTree_new (map xy (Lane.waypoints waypoints)) = Raise e ->
        waypoints_tree (waypoints_cb KDTree_new self waypoints).1
        = waypoints_tree self
        /\ (waypoints_cb KDTree_new self waypoints).2 = Raise e).
Proof.
  unfold waypoints_cb.
  destruct (KDTree_new (map xy (Lane.waypoints waypoints))) as [t|e].
  - split; [split; [exists waypoints; split; reflexivity|reflexivity]|].
    split; [intros tree H; inversion H; split; reflexivity|discriminate].
  - split; [split; [exists waypoints; split; reflexivity|reflexivity]|].
    split; [discriminate|intros e' H; inversion H; split; reflexivity].
Qed.

(** The vehicle stands at the first waypoint of [short_path]; the waypoint
    before it is the last one of the path. *)
Lemma get_closest_waypoint_idx_ahead_witness :
  exists r : Z,
    get_closest_waypoint_idx (node_at short_path 0 0 (-1) 30 1) = Ret r
    /\ (0 <= r < 3)%Z.
Proof.
  destruct (get_closest_waypoint_idx_ahead (node_at short_path 0 0 (-1) 30 1)
              short_path
              (PoseStamped.mk Header.default
                 (Pose.mk (Point.mk 0 0 0) Quaternion.default))
              (tree_answering 0))
    as (C & P & r & _ & _ & _ & Hr & _ & Hrange & _).
  - split; [eexists; split; reflexivity|reflexivity].
  - reflexivity.
  - reflexivity.
  - simpl. lia.
  - simpl. lia.
  - exists r. split; [exact Hr|exact Hrange].
Defined.

(** ** The window *)

Lemma lane_window_length {A} (path : list A) (idx h : Z) :
  (0 <= idx <= Z.of_nat (length path))%Z -> (0 <= h)%Z ->
  length (lane_window path idx h)
  = Z.to_nat (Z.min h (Z.of_nat (length path) - idx)).
Proof.
  intros Hidx Hh. unfold lane_window.
  rewrite py_slice_length by lia. lia.
Qed.

Lemma lane_window_lookup {A} (path : list A) (idx h : Z) (i : nat) :
  (0 <= idx)%Z -> (i < length (lane_window path idx h))%nat ->
  lane_window path idx h !! i = path !! (Z.to_nat idx + i)%nat.
Proof. intros. unfold lane_window in *. apply py_slice_lookup; assumption. Qed.

(** C5, as the code has it. The slice stops at the end of the path: taken
    at index 2 of a path of three waypoints with horizon 2 it holds one
    waypoint, not [min(2, 3) = 2]. *)
Lemma lane_window_truncated :
  length (lane_window short_path 2 2) = 1%nat
  /\ Z.min 2 (Z.of_nat (length short_path)) = 2%Z
  /\ lane_window short_path 2 2 = [wp_at 2 5].
Proof. repeat split. Qed.

(** C5 (amended). For a valid ahead index [idx] and a horizon [h >= 0], the
    extracted window has length [min(h, len(path) - idx)]; it starts at
    [idx] and its element [i] is [path[idx + i]], without wrapping round
    the end of the path. *)
Theorem lane_window_bound (path : list Waypoint.t) (idx h : Z) :
  (0 <= idx < Z.of_nat (length path))%Z -> (0 <= h)%Z ->
  length (lane_window path idx h)
  = Z.to_nat (Z.min h (Z.of_nat (length path) - idx))
  /\ forall i : nat,
       (i < length (lane_window path idx h))%nat ->
       lane_window path idx h !! i = path !! (Z.to_nat idx + i)%nat.
Proof.
  intros Hidx Hh. split; [apply lane_window_length; lia|].
  intros i Hi. apply lane_window_lookup; [lia|exact Hi].
Qed.

Lemma lane_window_bound_witness :
  length (lane_window (line 10 5) 8 30)
  = Z.to_nat (Z.min 30 (Z.of_nat (length (line 10 5)) - 8))
  /\ forall i : nat,
       (i < length (lane_window (line 10 5) 8 30))%nat ->
       lane_window (line 10 5) 8 30 !! i = line 10 5 !! (Z.to_nat 8 + i)%nat.
Proof.
  apply (lane_window_bound (line 10 5) 8 30).
  - rewrite line_length. lia.
  - lia.
Defined.

(** ** The lane *)

Lemma generate_lane_unfold (self : WaypointUpdater) (c : Z) (base : Lane.t) :
  get_closest_waypoint_idx self = Ret c ->
  waypoints_base self = Some base ->
  generate_lane self =
    let window := lane_window (Lane.waypoints base) c (lookahead_waypoints self) in
    if cruise self c
    then Ret (Lane.mk Header.default window)
    else wps ← decelerate_waypoints self window c;
         Ret (Lane.mk Header.default wps).
Proof.
  intros Hc Hb. unfold generate_lane. rewrite Hc. simpl. rewrite Hb. reflexivity.
Qed.

Lemma generate_lane_inv (self : WaypointUpdater) (lane : Lane.t) :
  generate_lane self = Ret lane ->
  exists c base,
    get_closest_waypoint_idx self = Ret c /\ waypoints_base self = Some base.
Proof.
  unfold generate_lane. intros H.
  destruct (get_closest_waypoint_idx self) as [c|]; [|discriminate].
  destruct (waypoints_base self) as [base|]; [|discriminate].
  exists c, base. split; reflexivity.
Qed.

Lemma cruise_spec (self : WaypointUpdater) (c : Z) :
  cruise self c = true <->
  (stopline_wp_idx self = -1
   \/ c + lookahead_waypoints self <= stopline_wp_idx self)%Z.
Proof.
  unfold cruise. rewrite orb_true_iff, Z.eqb_eq, Z.leb_le. reflexivity.
Qed.

(** The loop read backwards: a loop that returned ran each step. *)
Lemma decelerate_loop_inv (self : WaypointUpdater)
    (waypoints : list Waypoint.t) (closest_idx : Z)
    (items : list (Z * Waypoint.t)) :
  forall temp res : list Waypoint.t,
    decelerate_loop self waypoints closest_idx items temp = Ret res ->
    exists out,
      res = temp ++ out
      /\ Forall2 (fun it p =>
                    decelerate_step self waypoints closest_idx it.1 it.2 = Ret p)
                 items out.
Proof.
  induction items as [|[i wp] items IH]; intros temp res H; simpl in H.
  - inversion H. exists []. split; [rewrite app_nil_r; reflexivity|constructor].
  - destruct (decelerate_step self waypoints closest_idx i wp) as [p|] eqn:Hp;
      [|discriminate].
    simpl in H. destruct (IH _ _ H) as (out & -> & Hsteps).
    exists (p :: out). split; [rewrite <- app_assoc; reflexivity|].
    constructor; [exact Hp|exact Hsteps].
Qed.

Lemma decelerate_waypoints_inv (self : WaypointUpdater)
    (waypoints out : list Waypoint.t) (closest_idx : Z) :
  decelerate_waypoints self waypoints closest_idx = Ret out ->
  length out = length waypoints
  /\ forall (i : nat) (wp : Waypoint.t),
       waypoints !! i = Some wp ->
       exists p,
         out !! i = Some p
         /\ decelerate_step self waypoints closest_idx (Z.of_nat i) wp = Ret p.
Proof.
  intros H. apply decelerate_loop_inv in H as (out' & -> & Hsteps).
  simpl. pose proof (Forall2_length _ _ _ Hsteps) as Hlen.
  unfold enumerate in Hlen. rewrite length_imap in Hlen.
  split; [lia|]. intros i wp Hi.
  assert (enumerate waypoints !! i = Some (Z.of_nat i, wp)) as Hit.
  { rewrite enumerate_lookup, Hi. reflexivity. }
  destruct (Forall2_lookup_l _ _ _ _ _ Hsteps Hit) as (p & Hp & Hstep).
  exists p. split; assumption.
Qed.

Lemma decelerate_step_speed (self : WaypointUpdater)
    (waypoints : list Waypoint.t) (closest_idx i : Z) (wp p : Waypoint.t) :
  decelerate_step self waypoints closest_idx i wp = Ret p ->
  Waypoint.pose p = Waypoint.pose wp
  /\ (get_waypoint_velocity p <= get_waypoint_velocity wp)%R.
Proof.
  unfold decelerate_step. intros H.
  destruct (distance waypoints i (stop_local self closest_idx)) as [d|];
    [|discriminate].
  simpl in H. inversion H. split; [reflexivity|].
  rewrite get_set_velocity. apply Rmin_r.
Qed.

(** With a path loaded, an index that answers inside the path, a horizon
    that is not negative and a stop index that is none or inside the path,
    [generate_lane] returns a lane. *)
Lemma generate_lane_returns (self : WaypointUpdater)
    (path : list Waypoint.t) (p : PoseStamped.t) (tree : KDTree) :
  path_loaded self path ->
  pose self = Some p ->
  waypoints_tree self = Some tree ->
  (0 <= (query tree (Point.x (Pose.position (PoseStamped.pose p)),
                     Point.y (Pose.position (PoseStamped.pose p)))).2
   < Z.of_nat (length path))%Z ->
  (0 <= lookahead_waypoints self)%Z ->
  (stopline_wp_idx self < Z.of_nat (length path))%Z ->
  returns (generate_lane self).
Proof.
  intros Hloaded Hpose Htree Hc Hlook Hstop.
  destruct (get_closest_waypoint_idx_result self path p tree Hloaded Hpose
              Htree Hc) as (C & P & _ & _ & Hres).
  destruct Hloaded as [(base & Hbase & Hpath) _].
  match type of Hres with _ = Ret ?r => set (c := r) in Hres end.
  assert (0 <= c < Z.of_nat (length path))%Z as Hcr.
  { subst c. destruct (Rgt_dec _ 0); [apply circular_next_range|]; exact Hc. }
  rewrite (generate_lane_unfold self c base Hres Hbase). cbv zeta.
  rewrite Hpath.
  destruct (cruise self c) eqn:Hcruise; [eexists; reflexivity|].
  assert (~ (stopline_wp_idx self = -1
             \/ c + lookahead_waypoints self <= stopline_wp_idx self)%Z) as Hn.
  { rewrite <- cruise_spec, Hcruise. discriminate. }
  destruct (lane_window path c (lookahead_waypoints self)) as [|w0 tl] eqn:Hw.
  - eexists. reflexivity.
  - destruct (decelerate_waypoints_result self (w0 :: tl) c)
      as (out & Hout & _).
    { pose proof (lane_window_length path c (lookahead_waypoints self)) as L.
      rewrite Hw in L. simpl length in *. unfold stop_local. lia. }
    rewrite Hout. eexists. reflexivity.
Qed.

(** C4, as the code has it. The cruise test compares the stop index with
    [ahead_idx + lookahead], not with [ahead_idx + len(window)]: at index 2
    of [short_path] the window holds one waypoint, the stop index 5 is at
    least [2 + 1], and the lane is decelerated to speed 0 all the same. *)
Lemma generate_lane_decelerates_past_window :
  get_closest_waypoint_idx (node_at short_path 2 2 5 30 1) = Ret 2%Z
  /\ lane_window short_path 2 30 = [wp_at 2 5]
  /\ (2 + Z.of_nat (length (lane_window short_path 2 30))
      <= stopline_wp_idx (node_at short_path 2 2 5 30 1))%Z
  /\ speeds (lane_window short_path 2 30) = [5%R]
  /\ exists lane,
       generate_lane (node_at short_path 2 2 5 30 1) = Ret lane
       /\ speeds (Lane.waypoints lane) = [0%R].
Proof.
  assert (get_closest_waypoint_idx (node_at short_path 2 2 5 30 1) = Ret 2%Z)
    as Hc.
  { destruct (get_closest_waypoint_idx_result (node_at short_path 2 2 5 30 1)
                short_path
                (PoseStamped.mk Header.default
                   (Pose.mk (Point.mk 2 0 0) Quaternion.default))
                (tree_answering 2)) as (C & P & HC & HP & Hres).
    - split; [eexists; split; reflexivity|reflexivity].
    - reflexivity.
    - reflexivity.
    - simpl. lia.
    - simpl in HC, HP. inversion HC. inversion HP. subst C P.
      rewrite Hres. simpl.
      destruct (Rgt_dec _ 0) as [Hgt|_]; [|reflexivity].
      exfalso. unfold np_dot, np_sub, xy, position_of, wp_at in Hgt.
      simpl in Hgt. lra. }
  split; [exact Hc|]. split; [reflexivity|]. split; [simpl; lia|].
  split; [reflexivity|].
  rewrite (generate_lane_unfold _ _ _ Hc eq_refl).
  change (cruise (node_at short_path 2 2 5 30 1) 2) with false.
  change (lane_window (Lane.waypoints (Lane.mk Header.default short_path)) 2
            (lookahead_waypoints (node_at short_path 2 2 5 30 1)))
    with [wp_at 2 5].
  cbv zeta iota.
  destruct (decelerate_waypoints_result (node_at short_path 2 2 5 30 1)
              [wp_at 2 5] 2) as (out & Hout & Hlen & Hspec); [reflexivity|].
  destruct (Hspec 0%nat _ eq_refl) as (d & Hd & _ & Hp).
  change (stop_local (node_at short_path 2 2 5 30 1) 2) with 0%Z in Hd.
  rewrite distance_at_stop in Hd by (simpl; lia). inversion Hd. subst d.
  rewrite Hout. eexists. split; [reflexivity|]. simpl Lane.waypoints.
  destruct out as [|q [|]]; try discriminate. simpl in Hp. inversion Hp.
  unfold speeds. simpl map. rewrite get_set_velocity. f_equal.
  simpl max_deceleration. rewrite Rmult_0_r, clamp_low_zero.
  apply Rmin_left. unfold get_waypoint_velocity, wp_at. simpl. lra.
Qed.

(** C4 (amended). If the stop index is the sentinel -1 or is at least
    [ahead_idx + lookahead] (the configured horizon), the emitted lane is
    the extracted window itself: every emitted waypoint is the reference
    waypoint at the same place, speed included. For a stop index inside the
    path, being at least [ahead_idx + len(window)] comes to the same. *)
Theorem generate_lane_cruise (self : WaypointUpdater) (c : Z) (base : Lane.t) :
  get_closest_waypoint_idx self = Ret c ->
  waypoints_base self = Some base ->
  let path := Lane.waypoints base in
  let window := lane_window path c (lookahead_waypoints self) in
  (stopline_wp_idx self = -1
   \/ c + lookahead_waypoints self <= stopline_wp_idx self
   \/ ((0 <= c < Z.of_nat (length path)) /\ 0 <= lookahead_waypoints self
       /\ stopline_wp_idx self < Z.of_nat (length path)
       /\ c + Z.of_nat (length window) <= stopline_wp_idx self))%Z ->
  generate_lane self = Ret (Lane.mk Header.default window)
  /\ speeds (Lane.waypoints (Lane.mk Header.default window)) = speeds window
  /\ ((0 <= c)%Z ->
      forall (i : nat) (w : Waypoint.t),
        window !! i = Some w -> path !! (Z.to_nat c + i)%nat = Some w).
Proof.
  intros Hc Hb path window Hstop.
  split; [|split; [reflexivity|]].
  - rewrite (generate_lane_unfold self c base Hc Hb). cbv zeta.
    fold path. fold window.
    assert (cruise self c = true) as ->; [|reflexivity].
    apply cruise_spec.
    destruct Hstop as [H|[H|(H1 & H2 & H3 & H4)]]; [auto|auto|].
    right. subst window. rewrite lane_window_length in H4 by lia. lia.
  - intros Hc0 i w Hi. rewrite <- Hi. symmetry.
    apply lane_window_lookup; [exact Hc0|]. eapply lookup_lt_Some, Hi.
Qed.

(** No stop line: the vehicle at the first waypoint of [short_path]. *)
Lemma generate_lane_cruise_witness :
  generate_lane (node_at short_path 0 0 (-1) 30 1)
  = Ret (Lane.mk Header.default short_path).
Proof.
  assert (get_closest_waypoint_idx (node_at short_path 0 0 (-1) 30 1) = Ret 0%Z)
    as Hc.
  { unfold get_closest_waypoint_idx. simpl.
    destruct (Rgt_dec _ 0) as [Hgt|_]; [|reflexivity].
    exfalso. unfold np_dot, np_sub, xy, position_of, wp_at in Hgt.
    simpl in Hgt. lra. }
  apply (generate_lane_cruise (node_at short_path 0 0 (-1) 30 1) 0
           (Lane.mk Header.default short_path) Hc eq_refl).
  left. reflexivity.
Defined.

(** C7. Whenever [generate_lane] emits a lane, in the cruise branch or in
    the deceleration branch, the lane has one waypoint per waypoint of the
    extracted window, and no emitted speed exceeds the original speed of
    the reference waypoint at the same place. *)
Theorem generate_lane_speed_ceiling (self : WaypointUpdater) (lane : Lane.t) :
  generate_lane self = Ret lane ->
  exists (c : Z) (base : Lane.t),
    get_closest_waypoint_idx self = Ret c
    /\ waypoints_base self = Some base
    /\ length (Lane.waypoints lane)
       = length (lane_window (Lane.waypoints base) c (lookahead_waypoints self))
    /\ forall (i : nat) (p : Waypoint.t),
         Lane.waypoints lane !! i = Some p ->
         exists wp,
           lane_window (Lane.waypoints base) c (lookahead_waypoints self) !! i
             = Some wp
           /\ ((0 <= c)%Z ->
               Lane.waypoints base !! (Z.to_nat c + i)%nat = Some wp)
           /\ (get_waypoint_velocity p <= get_waypoint_velocity wp)%R.
Proof.
  intros H. destruct (generate_lane_inv self lane H) as (c & base & Hc & Hb).
  exists c, base. split; [exact Hc|]. split; [exact Hb|].
  rewrite (generate_lane_unfold self c base Hc Hb) in H. cbv zeta in H.
  set (window := lane_window (Lane.waypoints base) c (lookahead_waypoints self))
    in *.
  assert (forall (i : nat) (wp : Waypoint.t), window !! i = Some wp ->
            (0 <= c)%Z -> Lane.waypoints base !! (Z.to_nat c + i)%nat = Some wp)
    as Hpath.
  { intros i wp Hi Hc0. rewrite <- Hi. symmetry.
    apply lane_window_lookup; [exact Hc0|]. eapply lookup_lt_Some, Hi. }
  destruct (cruise self c).
  - inversion H. simpl. split; [reflexivity|].
    intros i p Hi. exists p. split; [exact Hi|].
    split; [apply Hpath, Hi|]. lra.
  - destruct (decelerate_waypoints self window c) as [out|] eqn:Hout;
      [|discriminate].
    simpl in H. inversion H. simpl.
    destruct (decelerate_waypoints_inv _ _ _ _ Hout) as [Hlen Hsteps].
    split; [exact Hlen|]. intros i p Hi.
    destruct (lookup_lt_is_Some_2 window i) as [wp Hwp].
    { rewrite <- Hlen. eapply lookup_lt_Some, Hi. }
    destruct (Hsteps i wp Hwp) as (p' & Hp' & Hstep).
    rewrite Hi in Hp'. inversion Hp'. subst p'.
    exists wp. split; [exact Hwp|]. split; [apply Hpath, Hwp|].
    apply (decelerate_step_speed _ _ _ _ _ _ Hstep).
Qed.

(** Ten unit-spaced waypoints at cruise speed 5, the vehicle at index 0
    and the stop line at index 6: a lane is emitted, under the ceiling. *)
Lemma generate_lane_speed_ceiling_witness :
  exists lane : Lane.t,
    generate_lane (node_at (line 10 5) 0 0 6 10 1) = Ret lane
    /\ forall (i : nat) (p : Waypoint.t),
         Lane.waypoints lane !! i = Some p ->
         (get_waypoint_velocity p <= 5)%R.
Proof.
  destruct (generate_lane_returns (node_at (line 10 5) 0 0 6 10 1) (line 10 5)
              (PoseStamped.mk Header.default
                 (Pose.mk (Point.mk 0 0 0) Quaternion.default))
              (tree_answering 0)) as [lane Hlane].
  - split; [eexists; split; reflexivity|reflexivity].
  - reflexivity.
  - reflexivity.
  - rewrite line_length. simpl. lia.
  - simpl. lia.
  - rewrite line_length. simpl. lia.
  - exists lane. split; [exact Hlane|]. intros i p Hi.
    destruct (generate_lane_speed_ceiling _ lane Hlane)
      as (c & base & _ & Hb & _ & Hceil).
    destruct (Hceil i p Hi) as (wp & Hwp & _ & Hle).
    inversion Hb. subst base.
    unfold lane_window, py_slice in Hwp.
    apply lookup_take_Some in Hwp as [Hwp _].
    rewrite lookup_drop in Hwp. simpl in Hwp.
    rewrite (line_speed _ _ _ _ Hwp) in Hle. exact Hle.
Defined.

(** ** The tick *)

(** C9. A tick on which the pose, the reference path or the spatial index
    is missing publishes nothing and raises nothing; a lane is published
    only when all three are present, and then it is the lane
    [generate_lane] returns. *)
Theorem run_tick_waits (self : WaypointUpdater) :
  (pose self = None \/ waypoints_base self = None \/ waypoints_tree self = None ->
   run_tick self = Ret None)
  /\ (forall lane : Lane.t,
        run_tick self = Ret (Some lane) ->
        exists p base tree,
          pose self = Some p /\ waypoints_base self = Some base
          /\ waypoints_tree self = Some tree)
  /\ (forall lane : Lane.t,
        run_tick self = Ret (Some lane) <-> generate_lane self = Ret lane).
Proof.
  unfold run_tick, publish_waypoints. split; [|split].
  - intros [H|[H|H]]; rewrite H; [reflexivity| |].
    + destruct (pose self); reflexivity.
    + destruct (pose self), (waypoints_base self); reflexivity.
  - intros lane H.
    destruct (pose self) as [p|]; [|discriminate].
    destruct (waypoints_base self) as [base|]; [|discriminate].
    destruct (waypoints_tree self) as [tree|]; [|discriminate].
    exists p, base, tree. auto.
  - intros lane. split.
    + intros H.
      destruct (pose self), (waypoints_base self), (waypoints_tree self);
        try discriminate.
      destruct (get_closest_waypoint_idx self); [|discriminate]. simpl in H.
      destruct (generate_lane self) as [l|]; [|discriminate].
      simpl in H. inversion H. reflexivity.
    + intros H.
      destruct (generate_lane_inv self lane H) as (c & base & Hc & Hb).
      rewrite Hb, Hc, H. unfold get_closest_waypoint_idx in Hc.
      destruct (pose self) as [p|]; [|discriminate]. simpl in Hc.
      destruct (waypoints_tree self) as [tree|]; [|discriminate].
      reflexivity.
Qed.

(** A node that has received nothing yet. *)
Lemma run_tick_waits_witness : run_tick (init 30 (3 / 4)) = Ret None.
Proof.
  apply (proj1 (run_tick_waits (init 30 (3 / 4)))). left. reflexivity.
Defined.

(** ** Waypoint objects *)

Lemma py_index_elem_of {A} (l : list A) (i : Z) (a : A) :
  py_index l i = Ret a -> a ∈ l.
Proof.
  unfold py_index. intros H.
  destruct (_ && _); [|discriminate].
  destruct (l !! _) as [a'|] eqn:E; [|discriminate].
  inversion H. subst a'. eapply list_elem_of_lookup_2, E.
Qed.

(** Objects are only added: the loop leaves the poses and every object it
    found in the store alone, and returns one new location per item. *)
Lemma store_decelerate_loop_frame (self : WaypointUpdater)
    (waypoints : list Store.loc) (closest_idx : Z)
    (items : list (Z * Store.loc)) :
  forall (h h' : Store.heap) (temp res : list Store.loc),
    Store.decelerate_loop self waypoints closest_idx items h temp = Ret (h', res) ->
    Store.poses h' = Store.poses h
    /\ (exists news, Store.objs h' = Store.objs h ++ news
                     /\ length news = length items)
    /\ res = temp ++ seq (length (Store.objs h)) (length items).
Proof.
  induction items as [|[i wp] items IH]; intros h h' temp res H; simpl in H.
  - inversion H. subst. split; [reflexivity|]. split.
    + exists []. split; [rewrite app_nil_r; reflexivity|reflexivity].
    + simpl. rewrite app_nil_r. reflexivity.
  - destruct (distance _ i _) as [d|]; [|discriminate]. simpl in H.
    apply IH in H as (Hposes & (news & Hobjs & Hlen) & Hres). simpl in *.
    split; [exact Hposes|]. split.
    + eexists. split; [rewrite Hobjs, <- app_assoc; reflexivity|].
      simpl. rewrite Hlen. reflexivity.
    + rewrite Hres, <- app_assoc, length_app. simpl.
      replace (length (Store.objs h) + 1)%nat with (S (length (Store.objs h)))
        by lia.
      reflexivity.
Qed.

Lemma store_deref_frame (h h' : Store.heap) (news : list Store.WaypointObj)
    (l : Store.loc) :
  Store.poses h' = Store.poses h ->
  Store.objs h' = Store.objs h ++ news ->
  (l < length (Store.objs h))%nat ->
  Store.deref h' l = Store.deref h l.
Proof.
  intros Hp Ho Hl. unfold Store.deref.
  rewrite Hp, Ho, lookup_total_app_l by exact Hl. reflexivity.
Qed.

(** The speed profiler on a store: every object that existed before is
    unchanged, and the returned locations are new. *)
Lemma store_decelerate_waypoints_frame (self : WaypointUpdater)
    (h h' : Store.heap) (waypoints out : list Store.loc) (closest_idx : Z) :
  Store.decelerate_waypoints self h waypoints closest_idx = Ret (h', out) ->
  (forall l, (l < length (Store.objs h))%nat ->
             Store.deref h' l = Store.deref h l)
  /\ out = seq (length (Store.objs h)) (length waypoints)
  /\ length (Store.objs h') = (length (Store.objs h) + length waypoints)%nat.
Proof.
  intros H. apply store_decelerate_loop_frame in H
    as (Hp & (news & Ho & Hlen) & Hres).
  unfold enumerate in *. rewrite length_imap in *.
  split; [|split].
  - intros l Hl. eapply store_deref_frame; eassumption.
  - exact Hres.
  - rewrite Ho, length_app. lia.
Qed.

(** Setting a speed through a location that is not [l] leaves [l] alone. *)
Lemma store_set_waypoint_velocity_frame (h h'' : Store.heap)
    (waypoints : list Store.loc) (k : Z) (v : R) (l : Store.loc) :
  Store.set_waypoint_velocity h waypoints k v = Ret h'' ->
  l ∉ waypoints ->
  Store.deref h'' l = Store.deref h l.
Proof.
  unfold Store.set_waypoint_velocity. intros H Hl.
  destruct (py_index waypoints k) as [l'|] eqn:E; [|discriminate].
  simpl in H. inversion H. unfold Store.deref. simpl.
  apply py_index_elem_of in E.
  rewrite list_lookup_total_insert_ne; [reflexivity|].
  intros ->. contradiction.
Qed.

(** Setting a speed through a location changes the speed stored there. *)
Lemma store_set_waypoint_velocity_hit (h : Store.heap)
    (waypoints : list Store.loc) (k : Z) (v : R) (l : Store.loc) :
  py_index waypoints k = Ret l ->
  (l < length (Store.objs h))%nat ->
  exists h'',
    Store.set_waypoint_velocity h waypoints k v = Ret h''
    /\ get_waypoint_velocity (Store.deref h'' l) = v.
Proof.
  intros Hk Hl. unfold Store.set_waypoint_velocity. rewrite Hk. simpl.
  eexists. split; [reflexivity|]. unfold Store.deref. simpl.
  rewrite list_lookup_total_insert_eq by exact Hl. reflexivity.
Qed.

(** *** The store model against the message model *)

Lemma py_slice_fmap {A B} (f : A -> B) (l : list A) (a b : Z) :
  py_slice (f <$> l) a b = f <$> py_slice l a b.
Proof.
  unfold py_slice. rewrite length_fmap, fmap_take, fmap_drop. reflexivity.
Qed.

Lemma enumerate_fmap {A B} (f : A -> B) (l : list A) :
  enumerate (f <$> l) = (fun it => (it.1, f it.2)) <$> enumerate l.
Proof.
  apply list_eq. intros i.
  rewrite list_lookup_fmap, !enumerate_lookup, list_lookup_fmap.
  destruct (l !! i); reflexivity.
Qed.

Lemma store_deref_fmap_frame (h h' : Store.heap) (ls : list Store.loc) :
  (forall l, (l < length (Store.objs h))%nat ->
             Store.deref h' l = Store.deref h l) ->
  Forall (fun l => (l < length (Store.objs h))%nat) ls ->
  Store.deref h' <$> ls = Store.deref h <$> ls.
Proof.
  intros Hframe Hvalid. induction Hvalid as [|l ls Hl _ IH]; [reflexivity|].
  rewrite !fmap_cons, (Hframe l Hl), IH. reflexivity.
Qed.

(** The loop on the store and the loop on message values run in step: they
    raise together, and when they return, the waypoints the store loop
    returns read as the waypoints the value loop returns. *)
Lemma store_decelerate_loop_simulates (self : WaypointUpdater)
    (waypoints : list Store.loc) (closest_idx : Z)
    (items : list (Z * Store.loc)) :
  forall (h : Store.heap) (temp : list Store.loc),
    Forall (fun l => (l < length (Store.objs h))%nat) waypoints ->
    Forall (fun it => (it.2 < length (Store.objs h))%nat) items ->
    Forall (fun l => (l < length (Store.objs h))%nat) temp ->
    match Store.decelerate_loop self waypoints closest_idx items h temp with
    | Ret (h', res) =>
        decelerate_loop self (Store.deref h <$> waypoints) closest_idx
          ((fun it => (it.1, Store.deref h it.2)) <$> items)
          (Store.deref h <$> temp)
        = Ret (Store.deref h' <$> res)
    | Raise e =>
        decelerate_loop self (Store.deref h <$> waypoints) closest_idx
          ((fun it => (it.1, Store.deref h it.2)) <$> items)
          (Store.deref h <$> temp)
        = Raise e
    end.
Proof.
  induction items as [|[i wp] items IH]; intros h temp Hws Hitems Htemp.
  - reflexivity.
  - simpl. unfold decelerate_step.
    change (map (Store.deref h) waypoints) with (Store.deref h <$> waypoints).
    destruct (distance (Store.deref h <$> waypoints) i
                (stop_local self closest_idx)) as [d|e]; simpl; [|reflexivity].
    match goal with
    | |- context [Store.decelerate_loop _ _ _ _ ?h1 (_ ++ [?p])] =>
        set (hn := h1); set (pn := p)
    end.
    inversion Hitems as [|? ? Hwp Hitems']; subst. simpl in Hwp.
    assert (forall l, (l < length (Store.objs h))%nat ->
                      Store.deref hn l = Store.deref h l) as Hframe.
    { intros l Hl.
      eapply store_deref_frame; [reflexivity|subst hn; reflexivity|exact Hl]. }
    assert (forall l, (l < length (Store.objs h))%nat ->
                      (l < length (Store.objs hn))%nat) as Hgrow.
    { intros l Hl. subst hn. simpl. rewrite length_app. lia. }
    specialize (IH hn (temp ++ [pn])).
    rewrite (store_deref_fmap_frame h hn waypoints Hframe Hws) in IH.
    rewrite fmap_app in IH.
    rewrite (store_deref_fmap_frame h hn temp Hframe Htemp) in IH.
    assert (((fun it : Z * Store.loc => (it.1, Store.deref hn it.2)) <$> items)
            = ((fun it : Z * Store.loc => (it.1, Store.deref h it.2)) <$> items))
      as Eitems.
    { apply Forall_fmap_ext. eapply Forall_impl; [exact Hitems'|].
      intros it Hit. simpl. f_equal. apply Hframe, Hit. }
    rewrite Eitems in IH.
    assert (Store.deref hn <$> [pn]
            = [Waypoint.mk (Waypoint.pose (Store.deref h wp))
                 (set_linear_x (Waypoint.twist Waypoint.default)
                    (Rmin (clamp_low (max_deceleration self * d))
                          (get_waypoint_velocity (Store.deref h wp))))])
      as Enew.
    { subst hn pn. simpl. unfold Store.deref at 1. simpl.
      rewrite list_lookup_total_middle by reflexivity. reflexivity. }
    rewrite Enew in IH. apply IH.
    + eapply Forall_impl; [exact Hws|]. exact Hgrow.
    + eapply Forall_impl; [exact Hitems'|]. intros it. apply Hgrow.
    + apply Forall_app. split.
      * eapply Forall_impl; [exact Htemp|]. exact Hgrow.
      * constructor; [|constructor]. subst hn pn. simpl.
        rewrite length_app. simpl. lia.
Qed.

(** [generate_lane] on the store and on message values agree, for a node
    that holds the objects at [base]. *)
Lemma store_generate_lane_simulates (self : WaypointUpdater) (h : Store.heap)
    (base : list Store.loc) :
  Store.holds self h base ->
  Forall (fun l => (l < length (Store.objs h))%nat) base ->
  match Store.generate_lane self h base with
  | Ret (h', out) =>
      generate_lane self = Ret (Lane.mk Header.default (Store.deref h' <$> out))
  | Raise e => generate_lane self = Raise e
  end.
Proof.
  intros (lane & Hb & Hpath) Hvalid.
  unfold Store.generate_lane, generate_lane.
  destruct (get_closest_waypoint_idx self) as [c|e]; [|reflexivity].
  simpl. rewrite Hb. simpl. rewrite Hpath.
  unfold lane_window. rewrite py_slice_fmap.
  destruct (cruise self c); [reflexivity|].
  set (window := py_slice base c (c + lookahead_waypoints self)).
  assert (Forall (fun l => (l < length (Store.objs h))%nat) window) as Hw.
  { apply Forall_forall. intros l Hl. rewrite Forall_forall in Hvalid.
    apply Hvalid. unfold window, py_slice in Hl.
    eapply subseteq_drop, subseteq_take, Hl. }
  pose proof (store_decelerate_loop_simulates self window c (enumerate window)
                h [] Hw) as Hsim.
  change (Store.deref h <$> []) with (@nil Waypoint.t) in Hsim.
  unfold Store.decelerate_waypoints, decelerate_waypoints.
  rewrite enumerate_fmap.
  destruct (Store.decelerate_loop self window c (enumerate window) h [])
    as [[h' out]|e].
  - rewrite Hsim; [reflexivity| |constructor].
    apply Forall_lookup_2. intros k [i l] Hk. rewrite enumerate_lookup in Hk.
    apply fmap_Some in Hk as (l' & E & Hk).
    inversion Hk. subst i l. simpl.
    exact (proj1 (Forall_lookup _ _) Hw k l' E).
  - rewrite Hsim; [reflexivity| |constructor].
    apply Forall_lookup_2. intros k [i l] Hk. rewrite enumerate_lookup in Hk.
    apply fmap_Some in Hk as (l' & E & Hk).
    inversion Hk. subst i l. simpl.
    exact (proj1 (Forall_lookup _ _) Hw k l' E).
Qed.

Lemma store_of_path_deref (path : list Waypoint.t) (i : nat) (w : Waypoint.t) :
  path !! i = Some w -> Store.deref (Store.of_path path) i = w.
Proof.
  intros Hi. unfold Store.deref, Store.of_path. simpl.
  rewrite (list_lookup_total_correct _ i
             {| Store.pose_ref := i; Store.twist := Waypoint.twist w |}).
  2:{ rewrite list_lookup_imap, Hi. reflexivity. }
  simpl. rewrite (list_lookup_total_correct _ i (Waypoint.pose w)).
  2:{ rewrite list_lookup_fmap, Hi. reflexivity. }
  destruct w. reflexivity.
Qed.

Lemma store_of_path_holds (self : WaypointUpdater) (path : list Waypoint.t) :
  path_loaded self path ->
  Store.holds self (Store.of_path path) (Store.locs_of_path path)
  /\ Forall (fun l => (l < length (Store.objs (Store.of_path path)))%nat)
            (Store.locs_of_path path).
Proof.
  intros [(lane & Hb & Hpath) _]. split.
  - exists lane. split; [exact Hb|]. rewrite Hpath. apply list_eq. intros i.
    unfold Store.locs_of_path. rewrite list_lookup_fmap.
    destruct (path !! i) as [w|] eqn:E.
    + rewrite (lookup_seq_lt _ _ _ (lookup_lt_Some _ _ _ E)). simpl.
      rewrite (store_of_path_deref _ _ _ E). reflexivity.
    + rewrite lookup_seq_ge; [reflexivity|]. apply lookup_ge_None, E.
  - apply Forall_forall. intros l Hl. unfold Store.locs_of_path in Hl.
    apply elem_of_seq in Hl. simpl. rewrite length_imap. lia.
Qed.

(** C8, as the code has it. In the cruise branch the emitted lane holds the
    waypoint objects of the reference path themselves: after
    [generate_lane], setting the speed of the first emitted waypoint to 9
    changes the speed of the first reference waypoint from 5 to 9. *)
Lemma cruise_lane_shares_reference_waypoints :
  exists (h' h'' : Store.heap) (out : list Store.loc),
    Store.generate_lane (node_at short_path 0 0 (-1) 30 1)
      (Store.of_path short_path) (Store.locs_of_path short_path)
    = Ret (h', out)
    /\ Store.set_waypoint_velocity h' out 0 9 = Ret h''
    /\ Store.locs_of_path short_path !! 0%nat = Some 0%nat
    /\ get_waypoint_velocity (Store.deref h' 0%nat) = 5%R
    /\ get_waypoint_velocity (Store.deref h'' 0%nat) = 9%R.
Proof.
  assert (get_closest_waypoint_idx (node_at short_path 0 0 (-1) 30 1) = Ret 0%Z)
    as Hc.
  { unfold get_closest_waypoint_idx. simpl.
    destruct (Rgt_dec _ 0) as [Hgt|_]; [|reflexivity].
    exfalso. unfold np_dot, np_sub, xy, position_of, wp_at in Hgt.
    simpl in Hgt. lra. }
  exists (Store.of_path short_path). eexists. exists [0; 1; 2]%nat.
  split; [unfold Store.generate_lane; rewrite Hc; reflexivity|].
  split; [reflexivity|]. split; [reflexivity|]. split; reflexivity.
Qed.

(** C8 (amended). [generate_lane], and with it the speed profiler, leaves
    every waypoint object that existed before the call unchanged, the
    reference path included. In the deceleration branch the emitted
    waypoints are new objects, one per waypoint of the window, so setting a
    speed in the emitted lane alters no speed of the reference path. In the
    cruise branch the store is untouched and the emitted lane is the slice
    of the reference path's own objects. *)
Theorem generate_lane_frame (self : WaypointUpdater) (h h' : Store.heap)
    (base out : list Store.loc) :
  Store.generate_lane self h base = Ret (h', out) ->
  exists c : Z,
    get_closest_waypoint_idx self = Ret c
    /\ (forall l, (l < length (Store.objs h))%nat ->
                  Store.deref h' l = Store.deref h l)
    /\ (cruise self c = true ->
        h' = h /\ out = lane_window base c (lookahead_waypoints self))
    /\ (cruise self c = false ->
        length out = length (lane_window base c (lookahead_waypoints self))
        /\ Forall (fun l => (length (Store.objs h) <= l
                             < length (Store.objs h'))%nat) out
        /\ forall (k : Z) (v : R) (h'' : Store.heap),
             Store.set_waypoint_velocity h' out k v = Ret h'' ->
             forall l, (l < length (Store.objs h))%nat ->
                       Store.deref h'' l = Store.deref h l).
Proof.
  unfold Store.generate_lane. intros H.
  destruct (get_closest_waypoint_idx self) as [c|]; [|discriminate].
  simpl in H. destruct (waypoints_base self); [|discriminate]. simpl in H.
  exists c. split; [reflexivity|].
  destruct (cruise self c).
  - inversion H. subst h' out. split; [reflexivity|].
    split; [intros _; split; reflexivity|discriminate].
  - apply store_decelerate_waypoints_frame in H as (Hframe & Hout & Hlen).
    split; [exact Hframe|]. split; [discriminate|]. intros _.
    assert (Forall (fun l => (length (Store.objs h) <= l
                              < length (Store.objs h'))%nat) out) as Hnew.
    { subst out. apply Forall_forall. intros l Hl.
      apply elem_of_seq in Hl. lia. }
    split; [subst out; apply length_seq|]. split; [exact Hnew|].
    intros k v h'' Hset l Hl. rewrite <- (Hframe l Hl).
    apply (store_set_waypoint_velocity_frame h' h'' out k v l Hset).
    intros Hin. rewrite Forall_forall in Hnew. specialize (Hnew l Hin). lia.
Qed.

(** Ten unit-spaced waypoints at cruise speed 5, the vehicle at index 0 and
    the stop line at index 6: whatever speed is set in the emitted lane, the
    ten reference waypoints read as before. *)
Lemma generate_lane_frame_witness :
  exists (h' : Store.heap) (out : list Store.loc),
    Store.generate_lane (node_at (line 10 5) 0 0 6 10 1)
      (Store.of_path (line 10 5)) (Store.locs_of_path (line 10 5))
    = Ret (h', out)
    /\ forall l, (l < length (Store.objs (Store.of_path (line 10 5))))%nat ->
                 Store.deref h' l = Store.deref (Store.of_path (line 10 5)) l.
Proof.
  destruct (Store.generate_lane (node_at (line 10 5) 0 0 6 10 1)
              (Store.of_path (line 10 5)) (Store.locs_of_path (line 10 5)))
    as [[h' out]|e] eqn:Hgen.
  - exists h', out. split; [reflexivity|].
    destruct (generate_lane_frame _ _ _ _ _ Hgen) as (c & _ & Hframe & _).
    exact Hframe.
  - exfalso.
    destruct (store_of_path_holds (node_at (line 10 5) 0 0 6 10 1) (line 10 5))
      as [Hholds Hvalid];
      [split; [eexists; split; reflexivity|reflexivity]|].
    pose proof (store_generate_lane_simulates _ _ _ Hholds Hvalid) as Hsim.
    rewrite Hgen in Hsim.
    destruct (generate_lane_returns (node_at (line 10 5) 0 0 6 10 1) (line 10 5)
                (PoseStamped.mk Header.default
                   (Pose.mk (Point.mk 0 0 0) Quaternion.default))
                (tree_answering 0)) as [lane Hlane].
    + split; [eexists; split; reflexivity|reflexivity].
    + reflexivity.
    + reflexivity.
    + rewrite line_length. simpl. lia.
    + simpl. lia.
    + rewrite line_length. simpl. lia.
    + rewrite Hlane in Hsim. discriminate.
Defined.

(** ** The node under a sequence of messages *)

Lemma deliver_all_snoc (KDTree_new : list (R * R) -> py KDTree)
    (self : WaypointUpdater) (ms : list message) (m : message) :
  deliver_all KDTree_new self (ms ++ [m])
  = deliver KDTree_new (deliver_all KDTree_new self ms) m.
Proof. unfold deliver_all. rewrite fold_left_app. reflexivity. Qed.

Lemma latest_snoc {A} (pick : message -> option A) (ms : list message)
    (m : message) :
  latest pick (ms ++ [m])
  = match pick m with Some a => Some a | None => latest pick ms end.
Proof.
  unfold latest. rewrite omap_app. simpl.
  destruct (pick m) as [a|].
  - apply last_snoc.
  - rewrite app_nil_r. reflexivity.
Qed.

Lemma latest_None {A} (pick : message -> option A) (ms : list message) :
  latest pick ms = None <-> Forall (fun m => pick m = None) ms.
Proof.
  induction ms as [|m ms IH] using rev_ind.
  - split; [constructor|reflexivity].
  - rewrite latest_snoc, Forall_app, Forall_singleton.
    destruct (pick m) as [a|]; [|rewrite IH]; split; try tauto;
      try discriminate.
Qed.

(** A callback is taken apart into the message kinds; [waypoints_cb] into
    the two ways its constructor call can end. *)
Ltac by_message m :=
  destruct m as [msg|msg|msg]; simpl; auto;
  unfold waypoints_cb;
  match goal with
  | |- context [match ?k with Ret _ => _ | Raise _ => _ end] =>
      destruct k; simpl; auto
  end.

Lemma deliver_all_pose (KDTree_new : list (R * R) -> py KDTree)
    (lookahead : Z) (max_decel : R) (ms : list message) :
  pose (deliver_all KDTree_new (init lookahead max_decel) ms)
  = latest pose_of_message ms.
Proof.
  induction ms as [|m ms IH] using rev_ind; [reflexivity|].
  rewrite deliver_all_snoc, latest_snoc. by_message m.
Qed.

Lemma deliver_all_base (KDTree_new : list (R * R) -> py KDTree)
    (lookahead : Z) (max_decel : R) (ms : list message) :
  waypoints_base (deliver_all KDTree_new (init lookahead max_decel) ms)
  = latest lane_of_message ms.
Proof.
  induction ms as [|m ms IH] using rev_ind; [reflexivity|].
  rewrite deliver_all_snoc, latest_snoc. by_message m.
Qed.

Lemma deliver_all_stop (KDTree_new : list (R * R) -> py KDTree)
    (lookahead : Z) (max_decel : R) (ms : list message) :
  stopline_wp_idx (deliver_all KDTree_new (init lookahead max_decel) ms)
  = default (-1)%Z (latest stop_of_message ms).
Proof.
  induction ms as [|m ms IH] using rev_ind; [reflexivity|].
  rewrite deliver_all_snoc, latest_snoc. by_message m.
Qed.

(** The tree held is the one of the last path message on which the
    constructor returned. *)
Lemma deliver_all_tree (KDTree_new : list (R * R) -> py KDTree)
    (lookahead : Z) (max_decel : R) (ms : list message) :
  waypoints_tree (deliver_all KDTree_new (init lookahead max_decel) ms)
  = latest (tree_of_message KDTree_new) ms.
Proof.
  induction ms as [|m ms IH] using rev_ind; [reflexivity|].
  rewrite deliver_all_snoc, latest_snoc. by_message m.
Qed.

Lemma deliver_all_consistent (KDTree_new : list (R * R) -> py KDTree)
    (lookahead : Z) (max_decel : R) (ms : list message) :
  consistent (deliver_all KDTree_new (init lookahead max_decel) ms).
Proof.
  unfold consistent. induction ms as [|m ms IH] using rev_ind; [reflexivity|].
  rewrite deliver_all_snoc. by_message m.
Qed.

Lemma deliver_all_parameters (KDTree_new : list (R * R) -> py KDTree)
    (lookahead : Z) (max_decel : R) (ms : list message) :
  lookahead_waypoints (deliver_all KDTree_new (init lookahead max_decel) ms)
  = lookahead
  /\ max_deceleration (deliver_all KDTree_new (init lookahead max_decel) ms)
     = max_decel.
Proof.
  induction ms as [|m ms IH] using rev_ind; [split; reflexivity|].
  rewrite deliver_all_snoc. by_message m.
Qed.

(** X1. Whatever messages the node has received since [__init__], the path
    and its 2-D positions belong together: both absent, or the positions
    those of the path held.  The tree held is the one built from the last
    path on which [KDTree(...)] returned: it is the tree of the path held
    when the constructor returned on that path, and an older tree, or none,
    when the constructor raised on it (as on an empty path).  The two
    parameters are never changed. *)
Theorem callbacks_keep_index_consistent
    (KDTree_new : list (R * R) -> py KDTree) (lookahead : Z) (max_decel : R)
    (ms : list message) :
  let self := deliver_all KDTree_new (init lookahead max_decel) ms in
  consistent self
  /\ (forall lane, waypoints_base self = Some lane ->
                   path_loaded self (Lane.waypoints lane))
  /\ waypoints_tree self = latest (tree_of_message KDTree_new) ms
  /\ (forall lane tree,
        waypoints_base self = Some lane ->
        KDTree_new (map xy (Lane.waypoints lane)) = Ret tree ->
        waypoints_tree self = Some tree)
  /\ (waypoints_base self = None -> waypoints_tree self = None)
  /\ lookahead_waypoints self = lookahead
  /\ max_deceleration self = max_decel.
Proof.
  cbv zeta.
  pose proof (deliver_all_consistent KDTree_new lookahead max_decel ms) as Hc.
  split; [exact Hc|]. split.
  { intros lane Hb. unfold consistent in Hc. rewrite Hb in Hc.
    split; [exists lane; split; [exact Hb|reflexivity]|exact Hc]. }
  split; [apply deliver_all_tree|].
  rewrite deliver_all_base, deliver_all_tree.
  split; [|split; [|apply deliver_all_parameters]].
  - clear Hc. induction ms as [|m ms IH] using rev_ind; [discriminate|].
    intros lane tree. rewrite !latest_snoc.
    destruct m as [msg|msg|msg]; simpl; try apply IH.
    intros Hl Ht. inversion Hl. subst msg. rewrite Ht. reflexivity.
  - rewrite !latest_None. intros H. eapply Forall_impl; [exact H|].
    intros m Hm. destruct m; simpl in *; try reflexivity. discriminate.
Qed.

(** X2. Last write wins: after any sequence of messages the node holds the
    pose of the last [/current_pose] message, the lane of the last
    [/base_waypoints] message and the index of the last
    [/traffic_waypoint] message, or [None], [None] and -1 where no such
    message has arrived. *)
Theorem callbacks_last_write_wins
    (KDTree_new : list (R * R) -> py KDTree) (lookahead : Z) (max_decel : R)
    (ms : list message) :
  let self := deliver_all KDTree_new (init lookahead max_decel) ms in
  pose self = latest pose_of_message ms
  /\ waypoints_base self = latest lane_of_message ms
  /\ stopline_wp_idx self = default (-1)%Z (latest stop_of_message ms).
Proof.
  cbv zeta. split; [apply deliver_all_pose|].
  split; [apply deliver_all_base|apply deliver_all_stop].
Qed.

(** X3. A node that has not yet received a pose, or has not yet received a
    path, or has received no path on which [KDTree(...)] returned,
    publishes nothing on a tick and raises nothing, whatever else it has
    received; once it has received a pose and a path on which the
    constructor returned, the pose, the path and the tree are all
    present. *)
Theorem run_tick_waits_for_messages
    (KDTree_new : list (R * R) -> py KDTree) (lookahead : Z) (max_decel : R)
    (ms : list message) :
  let self := deliver_all KDTree_new (init lookahead max_decel) ms in
  (Forall (fun m => pose_of_message m = None) ms
   \/ Forall (fun m => lane_of_message m = None) ms
   \/ Forall (fun m => tree_of_message KDTree_new m = None) ms ->
   run_tick self = Ret None)
  /\ (Exists (fun m => pose_of_message m <> None) ms ->
      Exists (fun m => tree_of_message KDTree_new m <> None) ms ->
      is_Some (pose self) /\ is_Some (waypoints_base self)
      /\ is_Some (waypoints_tree self)).
Proof.
  cbv zeta. split.
  - intros H. unfold run_tick.
    rewrite deliver_all_pose, deliver_all_base, deliver_all_tree.
    destruct H as [H|[H|H]]; apply latest_None in H; rewrite H.
    + reflexivity.
    + destruct (latest pose_of_message ms); reflexivity.
    + destruct (latest pose_of_message ms), (latest lane_of_message ms);
        reflexivity.
  - intros Hp Ht.
    rewrite deliver_all_pose, deliver_all_base, deliver_all_tree.
    assert (forall {A} (pick : message -> option A),
               Exists (fun m => pick m <> None) ms -> is_Some (latest pick ms))
      as Hsome.
    { intros A pick Hex. destruct (latest pick ms) as [a|] eqn:E;
        [eexists; reflexivity|].
      apply latest_None in E. apply Exists_exists in Hex as (m & Hin & Hm).
      rewrite Forall_forall in E. destruct (Hm (E m Hin)). }
    split; [apply Hsome, Hp|]. split; [|apply Hsome, Ht].
    apply Hsome. eapply Exists_impl; [exact Ht|].
    intros m Hm. destruct m; simpl in *; congruence.
Qed.

(** A pose and an empty path have arrived: the constructor raised, no tree
    is held, and the tick waits. *)
Lemma run_tick_waits_for_messages_witness :
  run_tick (deliver_all KDTree_stub (init 30 (3 / 4))
              [CurrentPose (pose_at 0 0);
               BaseWaypoints (Lane.mk Header.default []);
               TrafficWaypoint 7])
  = Ret None.
Proof.
  apply (proj1 (run_tick_waits_for_messages KDTree_stub 30 (3 / 4)
                  [CurrentPose (pose_at 0 0);
                   BaseWaypoints (Lane.mk Header.default []);
                   TrafficWaypoint 7])).
  right. right. repeat constructor.
Defined.

(** ** The localizer at its edges *)

Lemma py_index_out_of_range {A} (l : list A) (i : Z) :
  (i < - Z.of_nat (length l) \/ Z.of_nat (length l) <= i)%Z ->
  py_index l i = Raise IndexError.
Proof.
  intros H. unfold py_index.
  destruct (Z.ltb_spec i 0).
  - replace (0 <=? i + Z.of_nat (length l))%Z with false; [reflexivity|].
    symmetry. apply Z.leb_gt. lia.
  - replace (i <? Z.of_nat (length l))%Z with false;
      [rewrite andb_false_r; reflexivity|].
    symmetry. apply Z.ltb_ge. lia.
Qed.

(** X4. When the spatial index answers with an index outside the path
    (scipy answers [len(data)] when it finds no neighbour), the localizer
    raises [IndexError], and so do [generate_lane] and the tick: nothing
    is published. *)
Theorem get_closest_waypoint_idx_out_of_range (self : WaypointUpdater)
    (path : list Waypoint.t) (p : PoseStamped.t) (tree : KDTree) :
  path_loaded self path ->
  pose self = Some p ->
  waypoints_tree self = Some tree ->
  let n := Z.of_nat (length path) in
  let c := (query tree (Point.x (Pose.position (PoseStamped.pose p)),
                        Point.y (Pose.position (PoseStamped.pose p)))).2 in
  (c < - n \/ n <= c)%Z ->
  get_closest_waypoint_idx self = Raise IndexError
  /\ generate_lane self = Raise IndexError
  /\ run_tick self = Raise IndexError.
Proof.
  intros [(lane & Hb & _) H2d] Hpose Htree n c Hc.
  assert (get_closest_waypoint_idx self = Raise IndexError) as Hraise.
  { unfold get_closest_waypoint_idx. rewrite Hpose, Htree, H2d. simpl.
    fold c. rewrite (py_index_out_of_range (map xy path) c); [reflexivity|].
    rewrite length_map. exact Hc. }
  split; [exact Hraise|]. split.
  - unfold generate_lane. rewrite Hraise. reflexivity.
  - unfold run_tick. rewrite Hpose, Hb, Htree, Hraise. reflexivity.
Qed.

(** The tree answers 3 on a path of three waypoints. *)
Lemma get_closest_waypoint_idx_out_of_range_witness :
  run_tick (node_at short_path 0 3 (-1) 30 1) = Raise IndexError.
Proof.
  apply (get_closest_waypoint_idx_out_of_range
           (node_at short_path 0 3 (-1) 30 1) short_path (pose_at 0 0)
           (tree_answering 3)).
  - split; [eexists; split; reflexivity|reflexivity].
  - reflexivity.
  - reflexivity.
  - right. simpl. lia.
Defined.

(** X5. On a path of a single waypoint the waypoint before the nearest one
    is that waypoint itself ([waypoints_2d[-1]]), the dot product is 0, and
    the localizer returns index 0 wherever the vehicle is. *)
Theorem get_closest_waypoint_idx_single (self : WaypointUpdater)
    (w : Waypoint.t) (p : PoseStamped.t) (tree : KDTree) :
  path_loaded self [w] ->
  pose self = Some p ->
  waypoints_tree self = Some tree ->
  (query tree (Point.x (Pose.position (PoseStamped.pose p)),
               Point.y (Pose.position (PoseStamped.pose p)))).2 = 0%Z ->
  get_closest_waypoint_idx self = Ret 0%Z.
Proof.
  intros Hloaded Hpose Htree Hc.
  destruct (get_closest_waypoint_idx_result self [w] p tree Hloaded Hpose Htree)
    as (C & P & HC & HP & Hres).
  { rewrite Hc. simpl. lia. }
  rewrite Hc in HC, HP, Hres. simpl in HC, HP.
  inversion HC. inversion HP. subst C P. rewrite Hres.
  destruct (Rgt_dec _ 0) as [Hgt|_]; [|reflexivity].
  exfalso. unfold np_dot, np_sub in Hgt. simpl in Hgt. lra.
Qed.

Lemma get_closest_waypoint_idx_single_witness :
  get_closest_waypoint_idx (node_at [wp_at 4 5] 9 0 (-1) 30 1) = Ret 0%Z.
Proof.
  apply (get_closest_waypoint_idx_single (node_at [wp_at 4 5] 9 0 (-1) 30 1)
           (wp_at 4 5) (pose_at 9 0) (tree_answering 0)).
  - split; [eexists; split; reflexivity|reflexivity].
  - reflexivity.
  - reflexivity.
  - reflexivity.
Defined.

(** X6. The vehicle on the line through [P] and [C], at [P + s (C - P)]:
    up to and at the nearest waypoint ([s <= 1]) the localizer returns the
    index of [C]; past it ([s > 1], [C] and [P] at different places) it
    returns the next index on the circular path. *)
Theorem get_closest_waypoint_idx_on_segment (self : WaypointUpdater)
    (path : list Waypoint.t) (p : PoseStamped.t) (tree : KDTree)
    (C P : Waypoint.t) (s : R) :
  path_loaded self path ->
  pose self = Some p ->
  waypoints_tree self = Some tree ->
  let n := Z.of_nat (length path) in
  let x := Point.x (Pose.position (PoseStamped.pose p)) in
  let y := Point.y (Pose.position (PoseStamped.pose p)) in
  let c := (query tree (x, y)).2 in
  (0 <= c < n)%Z ->
  path !! Z.to_nat c = Some C ->
  path !! Z.to_nat ((c - 1) mod n) = Some P ->
  x = ((xy P).1 + s * ((xy C).1 - (xy P).1))%R ->
  y = ((xy P).2 + s * ((xy C).2 - (xy P).2))%R ->
  ((s <= 1)%R -> get_closest_waypoint_idx self = Ret c)
  /\ ((1 < s)%R -> xy C <> xy P ->
      get_closest_waypoint_idx self = Ret ((c + 1) mod n)%Z).
Proof.
  intros Hloaded Hpose Htree n x y c Hc HC HP Hx Hy.
  destruct (get_closest_waypoint_idx_result self path p tree Hloaded Hpose
              Htree Hc) as (C' & P' & HC' & HP' & Hres).
  fold n x y c in HC', HP', Hres. unfold circular_prev in HP'.
  rewrite HC in HC'. rewrite HP in HP'. inversion HC'. inversion HP'.
  subst C' P'. rewrite Hres. clear Hres HC' HP'.
  unfold np_dot, np_sub. subst x y. cbn [fst snd]. rewrite Hx, Hy.
  set (dx := ((xy C).1 - (xy P).1)%R). set (dy := ((xy C).2 - (xy P).2)%R).
  match goal with
  | |- context [Rgt_dec ?v 0] =>
      assert (v = (s - 1) * (dx * dx + dy * dy))%R as ->
        by (unfold dx, dy; ring)
  end.
  assert (0 <= dx * dx + dy * dy)%R as Hsq by nra.
  split.
  - intros Hs. destruct (Rgt_dec _ 0) as [Hgt|_]; [|reflexivity].
    exfalso. nra.
  - intros Hs Hne. destruct (Rgt_dec _ 0) as [_|Hngt]; [reflexivity|].
    exfalso. apply Hngt.
    assert (0 < dx * dx + dy * dy)%R as Hpos.
    { destruct (Req_dec dx 0) as [Hdx|Hdx]; [|nra].
      destruct (Req_dec dy 0) as [Hdy|Hdy]; [|nra].
      exfalso. apply Hne. unfold dx, dy in Hdx, Hdy.
      destruct (xy C) as [cx cy], (xy P) as [qx qy]. simpl in *.
      f_equal; lra. }
    nra.
Qed.

(** The vehicle at [(3, 0)], one unit past the last waypoint of
    [short_path]: the localizer wraps round to index 0. *)
Lemma get_closest_waypoint_idx_on_segment_witness :
  get_closest_waypoint_idx (node_at short_path 3 2 (-1) 30 1) = Ret 0%Z.
Proof.
  apply (get_closest_waypoint_idx_on_segment
           (node_at short_path 3 2 (-1) 30 1) short_path (pose_at 3 0)
           (tree_answering 2) (wp_at 2 5) (wp_at 1 5) 2).
  - split; [eexists; split; reflexivity|reflexivity].
  - reflexivity.
  - reflexivity.
  - simpl. lia.
  - reflexivity.
  - reflexivity.
  - simpl. lra.
  - simpl. lra.
  - lra.
  - unfold xy, position_of, wp_at. simpl. intros H. inversion H. lra.
Defined.

(** ** More on the distance helper *)

Lemma py_slice_inclusive {A} (l : list A) (i j : Z) :
  (0 <= i <= j)%Z -> (j < Z.of_nat (length l))%Z ->
  py_slice l i (j + 1) = take (S (Z.to_nat (j - i))) (drop (Z.to_nat i) l).
Proof.
  intros H1 H2. unfold py_slice, py_clamp.
  destruct (Z.ltb_spec i 0); [lia|].
  destruct (Z.ltb_spec (j + 1) 0); [lia|].
  f_equal; [lia|]. f_equal. lia.
Qed.

(** Once the loop is inside the list and the range runs past its end, the
    access [waypoints[i]] at [i = len(waypoints)] raises. *)
Lemma distance_loop_overrun (waypoints : list Waypoint.t) (k : nat) :
  forall (p : nat) (b : Z) (acc : R),
    (p + k + 1 = length waypoints)%nat ->
    (Z.of_nat (length waypoints) < b)%Z ->
    distance_loop waypoints (Z.of_nat p) (py_range (Z.of_nat p + 1) b) acc
    = Raise IndexError.
Proof.
  induction k as [|k IH]; intros p b acc Hp Hb.
  - rewrite py_range_cons by lia. simpl.
    destruct (lookup_lt_is_Some_2 waypoints p) as [a Ha]; [lia|].
    rewrite (py_index_nat _ _ _ Ha). simpl.
    rewrite py_index_out_of_range by lia. reflexivity.
  - rewrite py_range_cons by lia. simpl.
    destruct (lookup_lt_is_Some_2 waypoints p) as [a Ha]; [lia|].
    destruct (lookup_lt_is_Some_2 waypoints (S p)) as [a' Ha']; [lia|].
    rewrite (py_index_nat _ _ _ Ha).
    replace (Z.of_nat p + 1)%Z with (Z.of_nat (S p)) by lia.
    rewrite (py_index_nat _ _ _ Ha'). simpl. apply IH; lia.
Qed.

Lemma distance_overrun (waypoints : list Waypoint.t) (i j : Z) :
  (0 <= i < Z.of_nat (length waypoints))%Z ->
  (Z.of_nat (length waypoints) <= j)%Z ->
  distance waypoints i j = Raise IndexError.
Proof.
  intros Hi Hj. unfold distance. rewrite py_range_cons by lia. simpl.
  destruct (py_index_in_range waypoints i) as (a & _ & ->); [lia|]. simpl.
  rewrite <- (Z2Nat.id i) by lia.
  apply (distance_loop_overrun waypoints
           (length waypoints - 1 - Z.to_nat i)); lia.
Qed.

(** X8. [distance] does not check its second index.  Started at an index
    inside the list it returns exactly when the end index is below
    [len(waypoints)]; with an end index at or past [len(waypoints)] it
    walks to the end of the list and raises [IndexError]. *)
Theorem distance_past_end (waypoints : list Waypoint.t) (i j : Z) :
  (0 <= i < Z.of_nat (length waypoints))%Z ->
  (returns (distance waypoints i j) <-> (j < Z.of_nat (length waypoints))%Z)
  /\ ((Z.of_nat (length waypoints) <= j)%Z ->
      distance waypoints i j = Raise IndexError).
Proof.
  intros Hi. split; [|apply distance_overrun; exact Hi].
  split.
  - intros [d Hd]. destruct (Z_lt_le_dec j (Z.of_nat (length waypoints)))
      as [Hlt|Hge]; [exact Hlt|].
    rewrite distance_overrun in Hd by assumption. discriminate.
  - intros Hj. destruct (distance_returns waypoints i j) as (d & Hd & _);
      [lia|exact Hj|]. exists d. exact Hd.
Qed.

Lemma distance_past_end_witness :
  distance short_path 1 3 = Raise IndexError.
Proof.
  apply (distance_past_end short_path 1 3); simpl; lia.
Defined.

(** X9. Distances measured in the window are distances measured on the
    path: for a window cut at [idx >= 0] and local indices
    [0 <= i <= j < len(window)],
    [distance(window, i, j) = distance(path, idx + i, idx + j)]. *)
Theorem distance_in_window (path : list Waypoint.t) (idx h i j : Z) :
  (0 <= idx)%Z -> (0 <= i <= j)%Z ->
  (j < Z.of_nat (length (lane_window path idx h)))%Z ->
  distance (lane_window path idx h) i j = distance path (idx + i) (idx + j).
Proof.
  intros Hidx Hij Hj.
  set (window := lane_window path idx h) in *.
  assert (forall k : nat, (k < length window)%nat ->
            window !! k = path !! (Z.to_nat idx + k)%nat) as Hlook.
  { intros k Hk. apply lane_window_lookup; assumption. }
  assert (Z.to_nat idx + Z.to_nat j < length path)%nat as Hjp.
  { destruct (lookup_lt_is_Some_2 window (Z.to_nat j)) as [a Ha]; [lia|].
    rewrite Hlook in Ha by lia. eapply lookup_lt_Some, Ha. }
  rewrite !distance_forward by lia. do 3 f_equal.
  replace (idx + j + 1)%Z with ((idx + j) + 1)%Z by lia.
  rewrite !py_slice_inclusive by lia.
  apply (list_eq_same_length _ _ (S (Z.to_nat (j - i)))).
  - rewrite length_take, length_drop. lia.
  - rewrite length_take, length_drop. lia.
  - intros k x y Hk Hx Hy.
    rewrite lookup_take_lt, lookup_drop in Hx, Hy by lia.
    rewrite Hlook in Hx by lia.
    replace (Z.to_nat (idx + i) + k)%nat
      with (Z.to_nat idx + (Z.to_nat i + k))%nat in Hy by lia.
    congruence.
Qed.

Lemma distance_in_window_witness :
  distance (lane_window (line 10 5) 3 30) 1 4 = distance (line 10 5) (3 + 1) (3 + 4).
Proof.
  apply (distance_in_window (line 10 5) 3 30 1 4); [lia|lia|].
  rewrite lane_window_length; rewrite ?line_length; lia.
Defined.

(** ** More on the lane *)

Lemma decelerate_step_inv (self : WaypointUpdater)
    (waypoints : list Waypoint.t) (closest_idx i : Z) (wp p : Waypoint.t) :
  decelerate_step self waypoints closest_idx i wp = Ret p ->
  exists d,
    distance waypoints i (stop_local self closest_idx) = Ret d
    /\ p = Waypoint.mk (Waypoint.pose wp)
             (set_linear_x (Waypoint.twist Waypoint.default)
                (Rmin (clamp_low (max_deceleration self * d))
                      (get_waypoint_velocity wp))).
Proof.
  unfold decelerate_step. intros H.
  destruct (distance waypoints i (stop_local self closest_idx)) as [d|];
    [|discriminate].
  simpl in H. inversion H. exists d. split; reflexivity.
Qed.

(** With the stop index at local index 0 every distance is 0 and every
    waypoint is halted. *)
Lemma decelerate_waypoints_halts (self : WaypointUpdater)
    (waypoints : list Waypoint.t) (closest_idx : Z) :
  stop_local self closest_idx = 0%Z ->
  decelerate_waypoints self waypoints closest_idx = Ret (map halted waypoints).
Proof.
  intros Hs. destruct waypoints as [|w0 tl]; [reflexivity|].
  destruct (decelerate_waypoints_result self (w0 :: tl) closest_idx)
    as (out & Hout & Hlen & Hspec).
  { rewrite Hs. simpl. lia. }
  rewrite Hout. f_equal.
  apply (list_eq_same_length _ _ (length (w0 :: tl))).
  - apply length_map.
  - exact Hlen.
  - intros i x y Hi Hx Hy. rewrite list_lookup_fmap in Hy.
    destruct ((w0 :: tl) !! i) as [wp|] eqn:Hwp; [|discriminate].
    inversion Hy. subst y.
    destruct (Hspec i wp Hwp) as (d & Hd & _ & Hp).
    rewrite Hx in Hp. inversion Hp. unfold halted. do 3 f_equal.
    rewrite Hs in Hd.
    assert (d = 0%R) as ->.
    { destruct i as [|i].
      - rewrite distance_at_stop in Hd by (simpl; lia). congruence.
      - rewrite distance_reversed in Hd by lia. congruence. }
    rewrite Rmult_0_r. apply clamp_low_zero.
Qed.

(** C10, as the code has it. Past the stop index the distance is 0 and the
    target speed is 0, but the speed emitted is [min(0, cruise)]: on
    [reversing], with the stop index at local index 0, the speed emitted at
    offset 1 is the cruise speed -1, not 0. *)
Lemma profiler_emits_negative_cruise_past_stop :
  stop_local (node_at reversing 0 0 1 30 1) 0 = 0%Z
  /\ distance reversing 1 0 = Ret 0%R
  /\ speeds reversing = [5%R; (-1)%R]
  /\ exists out,
       decelerate_waypoints (node_at reversing 0 0 1 30 1) reversing 0 = Ret out
       /\ speeds out = [0%R; (-1)%R].
Proof.
  split; [reflexivity|]. split; [apply distance_reversed; lia|].
  split; [reflexivity|].
  exists (map halted reversing).
  split; [apply decelerate_waypoints_halts; reflexivity|].
  unfold speeds, reversing, halted. simpl map.
  rewrite !get_set_velocity. f_equal; [|f_equal].
  - apply Rmin_left. unfold get_waypoint_velocity, wp_at. simpl. lra.
  - unfold get_waypoint_velocity, wp_at. simpl. apply Rmin_right. lra.
Qed.

(** X10. A stop index that is not -1 and lies at most three waypoints ahead
    of the vehicle, or behind it, halts the whole lane: every emitted
    waypoint has the pose of its reference waypoint and the speed
    [min(0, cruise)]. *)
Theorem generate_lane_halts (self : WaypointUpdater) (c : Z) (base : Lane.t) :
  get_closest_waypoint_idx self = Ret c ->
  waypoints_base self = Some base ->
  stopline_wp_idx self <> (-1)%Z ->
  (stopline_wp_idx self < c + lookahead_waypoints self)%Z ->
  (stopline_wp_idx self <= c + 3)%Z ->
  generate_lane self
  = Ret (Lane.mk Header.default
           (map halted
              (lane_window (Lane.waypoints base) c (lookahead_waypoints self)))).
Proof.
  intros Hc Hb Hne Hlt Hle.
  rewrite (generate_lane_unfold self c base Hc Hb). cbv zeta.
  assert (cruise self c = false) as ->.
  { destruct (cruise self c) eqn:E; [|reflexivity].
    apply cruise_spec in E. lia. }
  rewrite decelerate_waypoints_halts; [reflexivity|].
  unfold stop_local. lia.
Qed.

(** The vehicle at index 2 of the line, the stop line at index 1 behind
    it. *)
Lemma generate_lane_halts_witness :
  generate_lane (node_at (line 10 5) 2 2 1 4 1)
  = Ret (Lane.mk Header.default (map halted (lane_window (line 10 5) 2 4))).
Proof.
  assert (get_closest_waypoint_idx (node_at (line 10 5) 2 2 1 4 1) = Ret 2%Z)
    as Hc.
  { unfold get_closest_waypoint_idx. simpl.
    destruct (Rgt_dec _ 0) as [Hgt|_]; [|reflexivity].
    exfalso. unfold np_dot, np_sub, xy, position_of, wp_at in Hgt.
    simpl in Hgt. lra. }
  apply (generate_lane_halts (node_at (line 10 5) 2 2 1 4 1) 2
           (Lane.mk Header.default (line 10 5)) Hc eq_refl).
  - simpl. lia.
  - simpl. lia.
  - simpl. lia.
Defined.

(** With the stop index outside a window that is not empty, the first
    pass of the loop raises. *)
Lemma decelerate_waypoints_overrun (self : WaypointUpdater)
    (waypoints : list Waypoint.t) (closest_idx : Z) :
  waypoints <> [] ->
  (Z.of_nat (length waypoints) <= stop_local self closest_idx)%Z ->
  decelerate_waypoints self waypoints closest_idx = Raise IndexError.
Proof.
  intros Hne Hs. destruct waypoints as [|w0 tl]; [contradiction|].
  unfold decelerate_waypoints, enumerate. simpl. unfold decelerate_step.
  rewrite distance_overrun; [reflexivity| |exact Hs].
  simpl. lia.
Qed.

(** X11. A stop index three or more past the end of the path, and inside
    the horizon, is not caught: the window ends at the end of the path, the
    local stop index lies outside it, and [generate_lane] and the tick
    raise [IndexError] instead of publishing. *)
Theorem generate_lane_stop_past_path (self : WaypointUpdater) (c : Z)
    (base : Lane.t) :
  get_closest_waypoint_idx self = Ret c ->
  waypoints_base self = Some base ->
  (0 <= c < Z.of_nat (length (Lane.waypoints base)))%Z ->
  (Z.of_nat (length (Lane.waypoints base)) + 3 <= stopline_wp_idx self)%Z ->
  (stopline_wp_idx self < c + lookahead_waypoints self)%Z ->
  generate_lane self = Raise IndexError
  /\ run_tick self = Raise IndexError.
Proof.
  intros Hc Hb Hrange Hstop Hlt.
  assert (generate_lane self = Raise IndexError) as Hraise.
  { rewrite (generate_lane_unfold self c base Hc Hb). cbv zeta.
    assert (cruise self c = false) as ->.
    { destruct (cruise self c) eqn:E; [|reflexivity].
      apply cruise_spec in E. lia. }
    pose proof (lane_window_length (Lane.waypoints base) c
                  (lookahead_waypoints self)) as Hlen.
    rewrite decelerate_waypoints_overrun; [reflexivity| |].
    - intros Hnil. rewrite Hnil in Hlen. simpl in Hlen. lia.
    - rewrite Hlen by lia. unfold stop_local. lia. }
  split; [exact Hraise|].
  unfold run_tick, publish_waypoints. rewrite Hb, Hc, Hraise.
  unfold get_closest_waypoint_idx in Hc.
  destruct (pose self); [|discriminate]. simpl in Hc.
  destruct (waypoints_tree self); [|discriminate]. reflexivity.
Qed.

(** The vehicle at the last waypoint of [short_path], the stop index 6. *)
Lemma generate_lane_stop_past_path_witness :
  run_tick (node_at short_path 2 2 6 30 1) = Raise IndexError.
Proof.
  assert (get_closest_waypoint_idx (node_at short_path 2 2 6 30 1) = Ret 2%Z)
    as Hc.
  { unfold get_closest_waypoint_idx. simpl.
    destruct (Rgt_dec _ 0) as [Hgt|_]; [|reflexivity].
    exfalso. unfold np_dot, np_sub, xy, position_of, wp_at in Hgt.
    simpl in Hgt. lra. }
  apply (generate_lane_stop_past_path (node_at short_path 2 2 6 30 1) 2
           (Lane.mk Header.default short_path) Hc eq_refl).
  - simpl. lia.
  - simpl. lia.
  - simpl. lia.
Defined.

(** X12. The lane [generate_lane] returns has an empty header (the header
    of the path is not copied), one waypoint per waypoint of the window,
    and the poses of the window in the same order.  In the deceleration
    branch each emitted twist is that of a new [Waypoint()] with only the
    linear x speed set: every other twist field of the reference waypoint
    is dropped. *)
Theorem generate_lane_keeps_poses (self : WaypointUpdater) (lane : Lane.t)
    (c : Z) (base : Lane.t) :
  generate_lane self = Ret lane ->
  get_closest_waypoint_idx self = Ret c ->
  waypoints_base self = Some base ->
  let window := lane_window (Lane.waypoints base) c (lookahead_waypoints self) in
  Lane.header lane = Header.default
  /\ length (Lane.waypoints lane) = length window
  /\ map Waypoint.pose (Lane.waypoints lane) = map Waypoint.pose window
  /\ (cruise self c = false ->
      forall p, p ∈ Lane.waypoints lane ->
        Waypoint.twist p
        = set_linear_x TwistStamped.default (get_waypoint_velocity p)).
Proof.
  intros H Hc Hb window.
  rewrite (generate_lane_unfold self c base Hc Hb) in H. cbv zeta in H.
  fold window in H. destruct (cruise self c).
  - inversion H. simpl. repeat split; discriminate.
  - destruct (decelerate_waypoints self window c) as [out|] eqn:Hout;
      [|discriminate].
    simpl in H. inversion H. simpl.
    destruct (decelerate_waypoints_inv _ _ _ _ Hout) as [Hlen Hsteps].
    split; [reflexivity|]. split; [exact Hlen|]. split.
    + apply (list_eq_same_length _ _ (length window)).
      * apply length_map.
      * rewrite length_map. exact Hlen.
      * intros i x y Hi Hx Hy. rewrite list_lookup_fmap in Hx, Hy.
        destruct (window !! i) as [wp|] eqn:Hwp; [|discriminate].
        destruct (Hsteps i wp Hwp) as (p & Hp & Hstep).
        rewrite Hp in Hx. simpl in Hx, Hy. inversion Hx. inversion Hy.
        apply (decelerate_step_speed _ _ _ _ _ _ Hstep).
    + intros _ p Hin. apply list_elem_of_lookup in Hin as [i Hi].
      destruct (lookup_lt_is_Some_2 window i) as [wp Hwp].
      { rewrite <- Hlen. eapply lookup_lt_Some, Hi. }
      destruct (Hsteps i wp Hwp) as (p' & Hp' & Hstep).
      rewrite Hi in Hp'. inversion Hp'. subst p'.
      apply decelerate_step_inv in Hstep as (d & _ & ->). reflexivity.
Qed.

(** X13. Emitted speeds stay in range: where the cruise speed is not
    negative the emitted speed is not negative either, and an emitted
    speed is the cruise speed itself, exactly 0, or at least 1 (the
    profiler never emits a crawl speed between 0 and 1 of its own). *)
Theorem generate_lane_speed_values (self : WaypointUpdater) (lane : Lane.t)
    (c : Z) (base : Lane.t) :
  generate_lane self = Ret lane ->
  get_closest_waypoint_idx self = Ret c ->
  waypoints_base self = Some base ->
  forall (i : nat) (p wp : Waypoint.t),
    Lane.waypoints lane !! i = Some p ->
    lane_window (Lane.waypoints base) c (lookahead_waypoints self) !! i
      = Some wp ->
    ((0 <= get_waypoint_velocity wp)%R -> (0 <= get_waypoint_velocity p)%R)
    /\ (get_waypoint_velocity p = get_waypoint_velocity wp
        \/ get_waypoint_velocity p = 0%R
        \/ (1 <= get_waypoint_velocity p)%R).
Proof.
  intros H Hc Hb i p wp Hp Hwp.
  rewrite (generate_lane_unfold self c base Hc Hb) in H. cbv zeta in H.
  destruct (cruise self c).
  - inversion H. subst lane. simpl in Hp. rewrite Hwp in Hp. inversion Hp.
    split; [auto|left; reflexivity].
  - destruct (decelerate_waypoints self _ c) as [out|] eqn:Hout;
      [|discriminate].
    simpl in H. inversion H. subst lane. simpl in Hp.
    destruct (decelerate_waypoints_inv _ _ _ _ Hout) as [_ Hsteps].
    destruct (Hsteps i wp Hwp) as (p' & Hp' & Hstep).
    rewrite Hp in Hp'. inversion Hp'. subst p'.
    apply decelerate_step_inv in Hstep as (d & _ & ->).
    rewrite get_set_velocity. unfold Rmin, clamp_low.
    destruct (Rlt_dec (max_deceleration self * d) 1);
      destruct (Rle_dec _ (get_waypoint_velocity wp)); split; intros; lra.
Qed.

Lemma generate_lane_speed_values_witness :
  exists lane : Lane.t,
    generate_lane (node_at (line 10 5) 0 0 6 10 1) = Ret lane
    /\ forall (i : nat) (p : Waypoint.t),
         Lane.waypoints lane !! i = Some p ->
         (0 <= get_waypoint_velocity p)%R.
Proof.
  assert (get_closest_waypoint_idx (node_at (line 10 5) 0 0 6 10 1) = Ret 0%Z)
    as Hc.
  { unfold get_closest_waypoint_idx. simpl.
    destruct (Rgt_dec _ 0) as [Hgt|_]; [|reflexivity].
    exfalso. unfold np_dot, np_sub, xy, position_of, wp_at in Hgt.
    simpl in Hgt. lra. }
  destruct (generate_lane_returns (node_at (line 10 5) 0 0 6 10 1) (line 10 5)
              (pose_at 0 0) (tree_answering 0)) as [lane Hlane].
  - split; [eexists; split; reflexivity|reflexivity].
  - reflexivity.
  - reflexivity.
  - rewrite line_length. simpl. lia.
  - simpl. lia.
  - rewrite line_length. simpl. lia.
  - exists lane. split; [exact Hlane|]. intros i p Hi.
    destruct (lookup_lt_is_Some_2
                (lane_window (line 10 5) 0 10) i) as [wp Hwp].
    { apply lookup_lt_Some in Hi.
      destruct (generate_lane_inv _ _ Hlane) as (c' & b' & Hc' & Hb').
      rewrite Hc in Hc'. inversion Hc'. inversion Hb'. subst c' b'.
      rewrite (generate_lane_unfold _ _ _ Hc eq_refl) in Hlane.
      cbv zeta in Hlane.
      change (cruise (node_at (line 10 5) 0 0 6 10 1) 0) with false in Hlane.
      cbv iota in Hlane.
      destruct (decelerate_waypoints _ _ 0) as [out|] eqn:Hout;
        [|discriminate].
      simpl in Hlane. inversion Hlane. subst lane. simpl in Hi.
      destruct (decelerate_waypoints_inv _ _ _ _ Hout) as [Hlen _].
      rewrite Hlen in Hi. exact Hi. }
    apply (generate_lane_speed_values (node_at (line 10 5) 0 0 6 10 1) lane 0
             (Lane.mk Header.default (line 10 5)) Hlane Hc eq_refl i p wp Hi Hwp).
    unfold lane_window, py_slice in Hwp.
    apply lookup_take_Some in Hwp as [Hwp _].
    rewrite lookup_drop in Hwp. simpl in Hwp.
    rewrite (line_speed _ _ _ _ Hwp). lra.
Defined.

(** The example node stands at its nearest waypoint: the localizer answers
    with that waypoint. *)
Lemma node_at_closest (path : list Waypoint.t) (px : R) (c stop lookahead : Z)
    (max_decel : R) (C : Waypoint.t) :
  (0 <= c < Z.of_nat (length path))%Z ->
  path !! Z.to_nat c = Some C ->
  xy C = (px, 0%R) ->
  get_closest_waypoint_idx (node_at path px c stop lookahead max_decel) = Ret c.
Proof.
  intros Hc HC Hxy.
  destruct (get_closest_waypoint_idx_result
              (node_at path px c stop lookahead max_decel) path
              (pose_at px 0) (tree_answering c)) as (C' & P & HC' & _ & Hres).
  - split; [eexists; split; reflexivity|reflexivity].
  - reflexivity.
  - reflexivity.
  - exact Hc.
  - simpl in HC', Hres. rewrite HC in HC'. inversion HC'. subst C'.
    rewrite Hres. destruct (Rgt_dec _ 0) as [Hgt|_]; [|reflexivity].
    exfalso. rewrite Hxy in Hgt. unfold np_dot, np_sub in Hgt.
    simpl in Hgt. lra.
Qed.

Lemma generate_lane_keeps_poses_witness :
  map Waypoint.pose
    (Lane.waypoints (Lane.mk Header.default (map halted (lane_window (line 10 5) 2 4))))
  = map Waypoint.pose (lane_window (line 10 5) 2 4).
Proof.
  assert (get_closest_waypoint_idx (node_at (line 10 5) 2 2 1 4 1) = Ret 2%Z)
    as Hc.
  { apply (node_at_closest _ _ _ _ _ _ (wp_at 2 5)).
    - rewrite line_length. lia.
    - reflexivity.
    - unfold xy, position_of, wp_at. simpl. f_equal.
  }
  assert (generate_lane (node_at (line 10 5) 2 2 1 4 1)
          = Ret (Lane.mk Header.default
                   (map halted (lane_window (line 10 5) 2 4)))) as Hlane.
  { rewrite (generate_lane_unfold _ _ _ Hc eq_refl). cbv zeta.
    change (cruise (node_at (line 10 5) 2 2 1 4 1) 2) with false. cbv iota.
    rewrite decelerate_waypoints_halts; reflexivity. }
  apply (generate_lane_keeps_poses (node_at (line 10 5) 2 2 1 4 1) _ 2
           (Lane.mk Header.default (line 10 5)) Hlane Hc eq_refl).
Defined.

(** X14. On a straight line of unit-spaced waypoints with the stop index
    inside the window, the speed emitted at local offset [i] is
    [min(v, cruise_i)] with [v = max_decel * (stop_local - i)], replaced by
    0 when below 1; past [stop_local] the distance counts as 0. *)
Theorem decelerate_waypoints_on_unit_line (self : WaypointUpdater)
    (window : list Waypoint.t) (ahead_idx : Z) :
  unit_spaced_line window ->
  (stop_local self ahead_idx < Z.of_nat (length window))%Z ->
  exists out,
    decelerate_waypoints self window ahead_idx = Ret out
    /\ forall (i : nat) (wp : Waypoint.t),
         window !! i = Some wp ->
         exists p,
           out !! i = Some p
           /\ get_waypoint_velocity p
              = Rmin (clamp_low
                        (max_deceleration self
                         * IZR (Z.max (stop_local self ahead_idx - Z.of_nat i) 0)))
                     (get_waypoint_velocity wp).
Proof.
  intros Hline Hs.
  pose proof (stop_local_nonneg self ahead_idx) as Hs0.
  destruct (decelerate_waypoints_result self window ahead_idx Hs)
    as (out & Hout & _ & Hspec).
  exists out. split; [exact Hout|]. intros i wp Hi.
  destruct (Hspec i wp Hi) as (d & Hd & _ & Hp).
  eexists. split; [exact Hp|]. rewrite get_set_velocity. do 3 f_equal.
  destruct (Z_lt_le_dec (stop_local self ahead_idx) (Z.of_nat i)) as [Hlt|Hle].
  - rewrite distance_reversed in Hd by exact Hlt. inversion Hd.
    rewrite Z.max_r by lia. reflexivity.
  - rewrite distance_forward in Hd by lia. inversion Hd.
    rewrite py_slice_inclusive by lia.
    rewrite (polyline_length_unit_spaced _ Hline) by lia.
    rewrite INR_IZR_INZ. f_equal. lia.
Qed.

Lemma decelerate_waypoints_on_unit_line_witness :
  exists out,
    decelerate_waypoints (node_at (line 10 5) 0 0 9 10 1) (line 10 5) 0 = Ret out
    /\ forall (i : nat) (wp : Waypoint.t),
         line 10 5 !! i = Some wp ->
         exists p,
           out !! i = Some p
           /\ get_waypoint_velocity p
              = Rmin (clamp_low
                        (1 * IZR (Z.max (stop_local (node_at (line 10 5) 0 0 9 10 1) 0
                                         - Z.of_nat i) 0)))
                     (get_waypoint_velocity wp).
Proof.
  apply (decelerate_waypoints_on_unit_line (node_at (line 10 5) 0 0 9 10 1)
           (line 10 5) 0).
  - apply line_unit_spaced.
  - rewrite line_length. unfold stop_local. simpl. lia.
Defined.

Lemma generate_lane_length (self : WaypointUpdater) (lane : Lane.t) (c : Z)
    (base : Lane.t) :
  generate_lane self = Ret lane ->
  get_closest_waypoint_idx self = Ret c ->
  waypoints_base self = Some base ->
  length (Lane.waypoints lane)
  = length (lane_window (Lane.waypoints base) c (lookahead_waypoints self)).
Proof.
  intros H Hc Hb.
  rewrite (generate_lane_unfold self c base Hc Hb) in H. cbv zeta in H.
  destruct (cruise self c).
  - inversion H. reflexivity.
  - destruct (decelerate_waypoints self _ c) as [out|] eqn:Hout;
      [|discriminate].
    simpl in H. inversion H. simpl.
    apply (decelerate_waypoints_inv _ _ _ _ Hout).
Qed.

(** X15. A tick on a node that holds a pose, a path and a tree answering
    inside the path, with a horizon of at least 1 and a stop index that is
    -1 or inside the path, publishes a lane; the lane has
    [min(lookahead, len(path) - ahead_idx)] waypoints: at least one and at
    most [lookahead]. *)
Theorem run_tick_publishes (self : WaypointUpdater)
    (path : list Waypoint.t) (p : PoseStamped.t) (tree : KDTree) :
  path_loaded self path ->
  pose self = Some p ->
  waypoints_tree self = Some tree ->
  (0 <= (query tree (Point.x (Pose.position (PoseStamped.pose p)),
                     Point.y (Pose.position (PoseStamped.pose p)))).2
   < Z.of_nat (length path))%Z ->
  (1 <= lookahead_waypoints self)%Z ->
  (stopline_wp_idx self < Z.of_nat (length path))%Z ->
  exists (lane : Lane.t) (c : Z),
    get_closest_waypoint_idx self = Ret c
    /\ run_tick self = Ret (Some lane)
    /\ Z.of_nat (length (Lane.waypoints lane))
       = Z.min (lookahead_waypoints self) (Z.of_nat (length path) - c)
    /\ (1 <= Z.of_nat (length (Lane.waypoints lane))
        <= lookahead_waypoints self)%Z.
Proof.
  intros Hloaded Hpose Htree Hq Hlook Hstop.
  destruct (generate_lane_returns self path p tree Hloaded Hpose Htree Hq)
    as [lane Hlane]; [lia|exact Hstop|].
  destruct (get_closest_waypoint_idx_result self path p tree Hloaded Hpose
              Htree Hq) as (C & P & _ & _ & Hres).
  match type of Hres with _ = Ret ?r => set (c := r) in Hres end.
  assert (0 <= c < Z.of_nat (length path))%Z as Hc.
  { subst c. destruct (Rgt_dec _ 0); [apply circular_next_range|]; exact Hq. }
  destruct Hloaded as [(base & Hb & Hpath) _].
  pose proof (generate_lane_length self lane c base Hlane Hres Hb) as Hlen.
  rewrite Hpath, lane_window_length in Hlen by lia.
  exists lane, c. split; [exact Hres|]. split.
  - unfold run_tick, publish_waypoints.
    rewrite Hpose, Hb, Htree, Hres, Hlane. reflexivity.
  - lia.
Qed.

Lemma run_tick_publishes_witness :
  exists (lane : Lane.t) (c : Z),
    get_closest_waypoint_idx (node_at (line 10 5) 8 8 (-1) 30 1) = Ret c
    /\ run_tick (node_at (line 10 5) 8 8 (-1) 30 1) = Ret (Some lane)
    /\ Z.of_nat (length (Lane.waypoints lane))
       = Z.min 30 (Z.of_nat (length (line 10 5)) - c)
    /\ (1 <= Z.of_nat (length (Lane.waypoints lane)) <= 30)%Z.
Proof.
  apply (run_tick_publishes (node_at (line 10 5) 8 8 (-1) 30 1) (line 10 5)
           (pose_at 8 0) (tree_answering 8)).
  - split; [eexists; split; reflexivity|reflexivity].
  - reflexivity.
  - reflexivity.
  - rewrite line_length. simpl. lia.
  - simpl. lia.
  - rewrite line_length. simpl. lia.
Defined.

(** ** More on waypoint objects *)



(** The new objects take over the pose references of the objects they are
    made from. *)
Lemma store_decelerate_loop_pose_refs (self : WaypointUpdater)
    (waypoints : list Store.loc) (closest_idx : Z)
    (items : list (Z * Store.loc)) :
  forall (h h' : Store.heap) (temp res : list Store.loc),
    Forall (fun it => (it.2 < length (Store.objs h))%nat) items ->
    Store.decelerate_loop self waypoints closest_idx items h temp = Ret (h', res) ->
    forall (k : nat) (it : Z * Store.loc),
      items !! k = Some it ->
      Store.pose_ref (Store.objs h' !!! (length (Store.objs h) + k)%nat)
      = Store.pose_ref (Store.objs h !!! it.2).
Proof.
  induction items as [|[i wp] items IH]; intros h h' temp res Hvalid H k it Hk.
  - rewrite lookup_nil in Hk. discriminate.
  - simpl in H. destruct (distance _ i _) as [d|]; [|discriminate].
    simpl in H. inversion Hvalid as [|? ? Hwp Hvalid']; subst.
    destruct k as [|k].
    + simpl in Hk. inversion Hk. subst it. simpl.
      apply store_decelerate_loop_frame in H as (_ & (news & Hobjs & _) & _).
      rewrite Hobjs. cbn [Store.objs]. rewrite <- app_assoc, Nat.add_0_r.
      cbn [app]. rewrite list_lookup_total_middle by reflexivity. reflexivity.
    + simpl in Hk.
      eapply IH in H; [|idtac|exact Hk].
      * simpl in H. rewrite length_app in H. simpl in H.
        replace (length (Store.objs h) + S k)%nat
          with (length (Store.objs h) + 1 + k)%nat by lia.
        rewrite H. rewrite lookup_total_app_l; [reflexivity|].
        rewrite Forall_forall in Hvalid'.
        apply (Hvalid' it). eapply list_elem_of_lookup_2, Hk.
      * simpl. rewrite length_app. simpl.
        eapply Forall_impl; [exact Hvalid'|]. intros ? ?. simpl in *. lia.
Qed.

(** X17. In the deceleration branch every emitted waypoint is an object of
    its own, different from every object that existed before, yet it
    refers to the very pose object of the reference waypoint it was made
    from ([p.pose = wp.pose]): the poses are shared, the twists are not. *)
Theorem decelerated_lane_shares_poses (self : WaypointUpdater)
    (h h' : Store.heap) (base out : list Store.loc) (c : Z) :
  Store.generate_lane self h base = Ret (h', out) ->
  get_closest_waypoint_idx self = Ret c ->
  cruise self c = false ->
  Forall (fun l => (l < length (Store.objs h))%nat) base ->
  forall (i : nat) (l wp : Store.loc),
    out !! i = Some l ->
    lane_window base c (lookahead_waypoints self) !! i = Some wp ->
    (length (Store.objs h) <= l)%nat
    /\ l <> wp
    /\ Store.pose_ref (Store.objs h' !!! l)
       = Store.pose_ref (Store.objs h !!! wp)
    /\ Waypoint.pose (Store.deref h' l) = Waypoint.pose (Store.deref h wp).
Proof.
  intros H Hc Hcruise Hvalid i l wp Hl Hwp.
  unfold Store.generate_lane in H. rewrite Hc in H. simpl in H.
  destruct (waypoints_base self); [|discriminate]. simpl in H.
  rewrite Hcruise in H.
  set (window := lane_window base c (lookahead_waypoints self)) in *.
  assert (Forall (fun l => (l < length (Store.objs h))%nat) window) as Hw.
  { apply Forall_forall. intros x Hx. rewrite Forall_forall in Hvalid.
    apply Hvalid. unfold window, lane_window, py_slice in Hx.
    eapply subseteq_drop, subseteq_take, Hx. }
  assert ((wp < length (Store.objs h))%nat) as Hwpv.
  { exact (proj1 (Forall_lookup _ _) Hw i wp Hwp). }
  unfold Store.decelerate_waypoints in H.
  pose proof (store_decelerate_loop_frame _ _ _ _ _ _ _ _ H)
    as (Hposes & _ & Hres).
  simpl in Hres. subst out.
  apply lookup_seq in Hl as [-> Hi].
  assert (Store.pose_ref (Store.objs h' !!! (length (Store.objs h) + i)%nat)
          = Store.pose_ref (Store.objs h !!! wp)) as Hshare.
  { assert (Forall (fun it : Z * Store.loc =>
                      (it.2 < length (Store.objs h))%nat) (enumerate window))
      as Hitems.
    { apply Forall_lookup_2. intros k [j x] Hk.
      rewrite enumerate_lookup in Hk.
      apply fmap_Some in Hk as (x' & E & Hk). inversion Hk. subst. simpl.
      exact (proj1 (Forall_lookup _ _) Hw k x' E). }
    assert (enumerate window !! i = Some (Z.of_nat i, wp)) as Hit.
    { rewrite enumerate_lookup, Hwp. reflexivity. }
    exact (store_decelerate_loop_pose_refs self window c (enumerate window)
             h h' [] _ Hitems H i (Z.of_nat i, wp) Hit). }
  split; [lia|]. split; [lia|]. split; [exact Hshare|].
  unfold Store.deref. cbn [Waypoint.pose]. rewrite Hposes.
  f_equal. exact Hshare.
Qed.

(** The example used below: the vehicle at index 2 of the line of ten, the
    stop line at index 1 behind it, horizon 4. *)
Lemma halting_example :
  get_closest_waypoint_idx (node_at (line 10 5) 2 2 1 4 1) = Ret 2%Z
  /\ generate_lane (node_at (line 10 5) 2 2 1 4 1)
     = Ret (Lane.mk Header.default (map halted (lane_window (line 10 5) 2 4))).
Proof.
  assert (get_closest_waypoint_idx (node_at (line 10 5) 2 2 1 4 1) = Ret 2%Z)
    as Hc.
  { apply (node_at_closest _ _ _ _ _ _ (wp_at 2 5)).
    - rewrite line_length. lia.
    - reflexivity.
    - unfold xy, position_of, wp_at. simpl. f_equal. }
  split; [exact Hc|].
  rewrite (generate_lane_unfold _ _ _ Hc eq_refl). cbv zeta.
  change (cruise (node_at (line 10 5) 2 2 1 4 1) 2) with false. cbv iota.
  rewrite decelerate_waypoints_halts; reflexivity.
Qed.

Lemma decelerated_lane_shares_poses_witness :
  exists (h' : Store.heap) (out : list Store.loc),
    Store.generate_lane (node_at (line 10 5) 2 2 1 4 1)
      (Store.of_path (line 10 5)) (Store.locs_of_path (line 10 5))
    = Ret (h', out)
    /\ forall (i : nat) (l wp : Store.loc),
         out !! i = Some l ->
         lane_window (Store.locs_of_path (line 10 5)) 2 4 !! i = Some wp ->
         l <> wp
         /\ Waypoint.pose (Store.deref h' l)
            = Waypoint.pose (Store.deref (Store.of_path (line 10 5)) wp).
Proof.
  destruct halting_example as [Hc Hlane].
  destruct (store_of_path_holds (node_at (line 10 5) 2 2 1 4 1) (line 10 5))
    as [Hholds Hvalid];
    [split; [eexists; split; reflexivity|reflexivity]|].
  destruct (Store.generate_lane (node_at (line 10 5) 2 2 1 4 1)
              (Store.of_path (line 10 5)) (Store.locs_of_path (line 10 5)))
    as [[h' out]|e] eqn:Hgen.
  - exists h', out. split; [reflexivity|]. intros i l wp Hl Hwp.
    destruct (decelerated_lane_shares_poses _ _ _ _ _ 2 Hgen Hc eq_refl Hvalid
                i l wp Hl Hwp) as (_ & Hne & _ & Hpose).
    split; [exact Hne|exact Hpose].
  - exfalso.
    pose proof (store_generate_lane_simulates _ _ _ Hholds Hvalid) as Hsim.
    rewrite Hgen, Hlane in Hsim. discriminate.
Defined.

(** X18. The profile stays under the braking ramp: with the stop index
    inside the window, the speed emitted at local offset [i] is at most
    [max_decel * distance(window, i, stop_local)] when that product is
    positive, and at most 0 otherwise. *)
Theorem decelerate_waypoints_under_ramp (self : WaypointUpdater)
    (window : list Waypoint.t) (ahead_idx : Z) :
  (stop_local self ahead_idx < Z.of_nat (length window))%Z ->
  exists out,
    decelerate_waypoints self window ahead_idx = Ret out
    /\ forall (i : nat) (p : Waypoint.t),
         out !! i = Some p ->
         exists d,
           distance window (Z.of_nat i) (stop_local self ahead_idx) = Ret d
           /\ (get_waypoint_velocity p
               <= Rmax 0 (max_deceleration self * d))%R.
Proof.
  intros Hs.
  destruct (decelerate_waypoints_result self window ahead_idx Hs)
    as (out & Hout & Hlen & Hspec).
  exists out. split; [exact Hout|]. intros i p Hp.
  destruct (lookup_lt_is_Some_2 window i) as [wp Hwp].
  { rewrite <- Hlen. eapply lookup_lt_Some, Hp. }
  destruct (Hspec i wp Hwp) as (d & Hd & _ & Hp').
  rewrite Hp in Hp'. inversion Hp'. exists d. split; [exact Hd|].
  rewrite get_set_velocity.
  apply Rle_trans with (clamp_low (max_deceleration self * d));
    [apply Rmin_l|].
  unfold clamp_low, Rmax.
  destruct (Rlt_dec (max_deceleration self * d) 1),
           (Rle_dec 0 (max_deceleration self * d)); lra.
Qed.

Lemma decelerate_waypoints_under_ramp_witness :
  exists out,
    decelerate_waypoints (node_at ramp 0 0 5 30 1) ramp 0 = Ret out
    /\ forall (i : nat) (p : Waypoint.t),
         out !! i = Some p ->
         exists d,
           distance ramp (Z.of_nat i) (stop_local (node_at ramp 0 0 5 30 1) 0)
             = Ret d
           /\ (get_waypoint_velocity p <= Rmax 0 (1 * d))%R.
Proof.
  apply (decelerate_waypoints_under_ramp (node_at ramp 0 0 5 30 1) ramp 0).
  unfold stop_local. simpl. lia.
Defined.
